(** * pdf2skill-lite: the document-to-skill-pack compiler of [index.js]

    A shallow embedding of the pure core of [index.js] (normalisation,
    block splitting, chunking, tokenisation, keyword ranking, step and
    condition extraction, routing score, dependency graph, manifest) and
    the properties the specification states about it.

    JavaScript strings are sequences of UTF-16 code units; a code unit is
    an [N] and a string a [list N], so [length] is [String.prototype.length]
    and a regular expression without the [u] flag reads one element at a
    time.  Numbers that the source keeps integral are [nat], [N] or [Z];
    the two places where the source divides ([jaccard] and the keyword
    density of [estimateRoutingScore]) are computed with the kernel's
    binary64 numbers, as the engine does. *)

From Stdlib Require String Ascii.
From Stdlib Require Import List NArith ZArith QArith Qround Bool.
From Stdlib Require Import Lia PeanoNat Floats Sorted Permutation.
From Stdlib Require DecimalN DecimalFacts.
Import ListNotations.
Import String.StringSyntax.
Delimit Scope string_scope with string.

#[local] Set Warnings "-inexact-float,-abstract-large-number".
Local Open Scope nat_scope.

(** ** Strings *)

Module Str.

Definition char := N.
Bind Scope N_scope with char.
Definition str := list char.

(** Source literals are written as Rocq strings (UTF-8 bytes) and decoded to
    code units; every literal of [index.js] lies in the Basic Multilingual
    Plane, so one to three bytes give one code unit. *)
Fixpoint utf16 (bs : list N) : str :=
  match bs with
  | [] => []
  | b0 :: r0 =>
      if (b0 <? 128)%N then b0 :: utf16 r0
      else match r0 with
           | [] => []
           | b1 :: r1 =>
               if (b0 <? 224)%N
               then ((b0 mod 32) * 64 + b1 mod 64)%N :: utf16 r1
               else match r1 with
                    | [] => []
                    | b2 :: r2 =>
                        ((b0 mod 16) * 4096 + (b1 mod 64) * 64 + b2 mod 64)%N
                          :: utf16 r2
                    end
           end
  end.

Definition lit (s : String.string) : str :=
  utf16 (map Ascii.N_of_ascii (String.list_ascii_of_string s)).
Arguments lit s%_string.

Fixpoint eqb (a b : str) : bool :=
  match a, b with
  | [], [] => true
  | x :: a', y :: b' => (x =? y)%N && eqb a' b'
  | _, _ => false
  end.

(** [Set.prototype.has] and [Array.prototype.includes] on strings. *)
Definition mem (x : str) (l : list str) : bool := existsb (eqb x) l.

(** A character class written as the string of its members. *)
Definition oneOf (members : str) (c : char) : bool :=
  existsb (N.eqb c) members.

Definition between (lo hi c : char) : bool := ((lo <=? c) && (c <=? hi))%N.

(** [\s], which is also what [trim] strips: WhiteSpace and LineTerminator. *)
Definition isWs (c : char) : bool :=
  oneOf [9; 10; 11; 12; 13; 32; 160; 5760; 8232; 8233; 8239; 8287; 12288;
         65279]%N c
  || between 8192 8202 c.

(** What [.] does not match. *)
Definition isLineTerminator (c : char) : bool :=
  oneOf [10; 13; 8232; 8233]%N c.

Definition isDot (c : char) : bool := negb (isLineTerminator c).
Definition isDigit (c : char) : bool := between 48 57 c.
Definition isUpper (c : char) : bool := between 65 90 c.
Definition isLower (c : char) : bool := between 97 122 c.
Definition isLatin (c : char) : bool := isUpper c || isLower c.
(** [\w] *)
Definition isWord (c : char) : bool :=
  isLatin c || isDigit c || (c =? 95)%N.
(** [[一-龥]] *)
Definition isCjk (c : char) : bool := between 19968 40869 c.
(** [[a-z0-9]] *)
Definition isLowerAlnum (c : char) : bool := isLower c || isDigit c.

Definition nonEmpty (s : str) : bool :=
  match s with [] => false | _ :: _ => true end.

Fixpoint dropWhile (p : char -> bool) (s : str) : str :=
  match s with
  | [] => []
  | c :: r => if p c then dropWhile p r else s
  end.

(** The string without its trailing run of [p] characters. *)
Fixpoint dropEndWhile (p : char -> bool) (s : str) : str :=
  match s with
  | [] => []
  | c :: r =>
      match dropEndWhile p r with
      | [] => if p c then [] else [c]
      | r' => c :: r'
      end
  end.

Definition trimStart (s : str) : str := dropWhile isWs s.
Definition trimEnd (s : str) : str := dropEndWhile isWs s.
Definition trim (s : str) : str := trimEnd (trimStart s).

(** [Array.prototype.join] *)
Fixpoint join (sep : str) (l : list str) : str :=
  match l with
  | [] => []
  | [x] => x
  | x :: r => x ++ sep ++ join sep r
  end.

(** [Array.prototype.slice(i, j)] for [0 <= i], [0 <= j]. *)
Definition slice {A} (i j : nat) (l : list A) : list A :=
  firstn (j - i) (skipn i l).

(** [s.split("\n")]: the pieces between line feeds, never an empty array. *)
Fixpoint splitLinesFrom (cur : str) (s : str) : list str :=
  match s with
  | [] => [rev cur]
  | c :: r =>
      if (c =? 10)%N then rev cur :: splitLinesFrom [] r
      else splitLinesFrom (c :: cur) r
  end.
Definition splitLines (s : str) : list str := splitLinesFrom [] s.

(** [s.split(/\n\n+/)]: the separator is a maximal run of two or more line
    feeds; [insep] holds while such a run is being skipped. *)
Fixpoint splitBlankFrom (insep : bool) (cur : str) (s : str) : list str :=
  match s with
  | [] => [rev cur]
  | c :: r =>
      if (c =? 10)%N then
        if insep then splitBlankFrom true [] r
        else match r with
             | c' :: _ =>
                 if (c' =? 10)%N then rev cur :: splitBlankFrom true [] r
                 else splitBlankFrom false (c :: cur) r
             | [] => splitBlankFrom false (c :: cur) r
             end
      else splitBlankFrom false (c :: cur) r
  end.
Definition splitBlank (s : str) : list str := splitBlankFrom false [] s.

(** [s.split(/\s+/)]: the separator is a maximal run of whitespace. *)
Fixpoint splitWsFrom (insep : bool) (cur : str) (s : str) : list str :=
  match s with
  | [] => [rev cur]
  | c :: r =>
      if isWs c then
        if insep then splitWsFrom true [] r
        else rev cur :: splitWsFrom true [] r
      else splitWsFrom false (c :: cur) r
  end.
Definition splitWs (s : str) : list str := splitWsFrom false [] s.

(** [s.replace(/\s+/g, "")] *)
Definition stripWs (s : str) : str := filter (fun c => negb (isWs c)) s.

(** [s.replace(/\s+/g, " ")]: [inrun] holds inside a run already replaced. *)
Fixpoint collapseWsFrom (inrun : bool) (s : str) : str :=
  match s with
  | [] => []
  | c :: r =>
      if isWs c then
        if inrun then collapseWsFrom true r else 32%N :: collapseWsFrom true r
      else c :: collapseWsFrom false r
  end.
Definition collapseWs (s : str) : str := collapseWsFrom false s.

(** [String(n)] for a non-negative integer. *)
Fixpoint digits (d : Decimal.uint) : str :=
  match d with
  | Decimal.Nil => []
  | Decimal.D0 d' => 48%N :: digits d'
  | Decimal.D1 d' => 49%N :: digits d'
  | Decimal.D2 d' => 50%N :: digits d'
  | Decimal.D3 d' => 51%N :: digits d'
  | Decimal.D4 d' => 52%N :: digits d'
  | Decimal.D5 d' => 53%N :: digits d'
  | Decimal.D6 d' => 54%N :: digits d'
  | Decimal.D7 d' => 55%N :: digits d'
  | Decimal.D8 d' => 56%N :: digits d'
  | Decimal.D9 d' => 57%N :: digits d'
  end.

Definition ofN (n : N) : str := digits (N.to_uint n).
Definition ofNat (n : nat) : str := ofN (N.of_nat n).

(** [String(z)] for an integer. *)
Definition ofZ (z : Z) : str :=
  match z with
  | Zneg p => 45%N :: ofN (Npos p)
  | _ => ofN (Z.to_N z)
  end.

(** [s.padStart(n, "0")] *)
Definition padStart0 (n : nat) (s : str) : str :=
  repeat 48%N (n - length s) ++ s.

End Str.
Import Str.

(** ** Regular expressions

    The patterns of [index.js] that are more than a character class are kept
    as data and run by a backtracking matcher with the engine's order of
    choices: a quantifier is greedy, an alternative tries its left branch
    first.  Every quantifier of the source stands on a character class. *)

Module Regex.

Inductive regex : Type :=
| Cls (p : char -> bool)                (* one code unit of a class *)
| Rep (p : char -> bool) (min : nat)    (* class{min,} *)
| Opt (p : char -> bool)                (* class? *)
| Seq (r1 r2 : regex)
| Alt (r1 r2 : regex)
| Grp (i : nat) (r : regex)             (* capture group number i *)
| Bol                                   (* ^ without the m flag *)
| Eol                                   (* $ without the m flag *)
| Wb.                                   (* \b *)

Definition caps := list (nat * str).

(** A position is the code unit before it ([None] at the start of the input)
    and the input that remains. *)
Definition cont := option char -> str -> caps -> option (str * caps).

Definition wordBefore (prev : option char) : bool :=
  match prev with Some c => isWord c | None => false end.
Definition wordAfter (s : str) : bool :=
  match s with c :: _ => isWord c | [] => false end.

Fixpoint rmatch (r : regex) (k : cont) (prev : option char) (s : str)
    (c : caps) {struct r} : option (str * caps) :=
  match r with
  | Cls p =>
      match s with
      | x :: s' => if p x then k (Some x) s' c else None
      | [] => None
      end
  | Rep p min =>
      (fix rep (m : nat) (prev : option char) (s : str) {struct s} :=
         let stop := match m with 0 => k prev s c | S _ => None end in
         match s with
         | x :: s' =>
             if p x then
               match rep (pred m) (Some x) s' with
               | Some res => Some res
               | None => stop
               end
             else stop
         | [] => stop
         end) min prev s
  | Opt p =>
      match s with
      | x :: s' =>
          if p x then
            match k (Some x) s' c with
            | Some res => Some res
            | None => k prev s c
            end
          else k prev s c
      | [] => k prev s c
      end
  | Seq r1 r2 => rmatch r1 (rmatch r2 k) prev s c
  | Alt r1 r2 =>
      match rmatch r1 k prev s c with
      | Some res => Some res
      | None => rmatch r2 k prev s c
      end
  | Grp i r' =>
      rmatch r'
        (fun prev' s' c' =>
           k prev' s' ((i, firstn (length s - length s') s) :: c'))
        prev s c
  | Bol => match prev with None => k prev s c | Some _ => None end
  | Eol => match s with [] => k prev s c | _ :: _ => None end
  | Wb => if xorb (wordBefore prev) (wordAfter s) then k prev s c else None
  end.

Definition accept : cont := fun _ s c => Some (s, c).

(** A match that starts at this position: what it consumed and its groups. *)
Definition matchHere (r : regex) (prev : option char) (s : str)
  : option (str * caps) :=
  match rmatch r accept prev s [] with
  | Some (rest, c) => Some (firstn (length s - length rest) s, c)
  | None => None
  end.

(** [s.match(r)] for [r] without the [g] flag: the leftmost match. *)
Fixpoint execFrom (r : regex) (prev : option char) (s : str)
  : option (str * caps) :=
  match matchHere r prev s with
  | Some res => Some res
  | None =>
      match s with
      | [] => None
      | x :: s' => execFrom r (Some x) s'
      end
  end.
Definition exec (r : regex) (s : str) : option (str * caps) :=
  execFrom r None s.

(** Capture group [i] of a match, [undefined] being [None]. *)
Fixpoint group (i : nat) (c : caps) : option str :=
  match c with
  | [] => None
  | (j, v) :: c' => if Nat.eqb i j then Some v else group i c'
  end.

(** [s.match(r) || []] for [r] with the [g] flag: the matches from left to
    right, each search resuming where the last match ended (one code unit
    further after an empty match).  [skip] counts the code units of the
    last match that are still to be passed. *)
Fixpoint matchAllFrom (r : regex) (skip : nat) (prev : option char) (s : str)
  : list str :=
  match skip with
  | S n =>
      match s with
      | [] => []
      | x :: s' => matchAllFrom r n (Some x) s'
      end
  | 0 =>
      match matchHere r prev s with
      | Some (m, _) =>
          m :: match s with
               | [] => []
               | x :: s' => matchAllFrom r (pred (length m)) (Some x) s'
               end
      | None =>
          match s with
          | [] => []
          | x :: s' => matchAllFrom r 0 (Some x) s'
          end
      end
  end.
Definition matchAll (r : regex) (s : str) : list str :=
  matchAllFrom r 0 None s.

(** A sequence of patterns, and a literal (with the [i] flag: the engine
    compares code units after [Canonicalize], which on a Basic Latin letter
    identifies exactly its two cases). *)
Fixpoint cat (rs : list regex) : regex :=
  match rs with
  | [] => Rep (fun _ => false) 0
  | [r] => r
  | r :: rs' => Seq r (cat rs')
  end.

Definition chr (x : char) : regex := Cls (N.eqb x).
Definition word (s : str) : regex := cat (map chr s).

Definition sameLetter (x c : char) : bool :=
  (c =? x)%N
  || (isLower x && (c =? x - 32)%N)
  || (isUpper x && (c =? x + 32)%N).
Definition wordCI (s : str) : regex :=
  cat (map (fun x => Cls (sameLetter x)) s).

End Regex.
Import Regex.

(** ** Insertion-ordered sets and maps

    [Set] and [Map] iterate in insertion order, and setting a key that is
    present keeps its place. *)

Module Coll.

Definition setAdd (x : str) (s : list str) : list str :=
  if mem x s then s else s ++ [x].

(** [new Set(array)] *)
Definition setOf (l : list str) : list str :=
  fold_left (fun s x => setAdd x s) l [].

Section Map.
Variable A : Type.

Fixpoint mapGet (k : str) (m : list (str * A)) : option A :=
  match m with
  | [] => None
  | (k', v) :: m' => if Str.eqb k k' then Some v else mapGet k m'
  end.

Fixpoint mapSet (k : str) (v : A) (m : list (str * A)) : list (str * A) :=
  match m with
  | [] => [(k, v)]
  | (k', v') :: m' =>
      if Str.eqb k k' then (k, v) :: m' else (k', v') :: mapSet k v m'
  end.

End Map.

Arguments mapGet {A} k m.
Arguments mapSet {A} k v m.

End Coll.
Import Coll.

(** ** Numbers *)

Module Num.

Definition ofNat (n : nat) : float :=
  PrimFloat.of_uint63 (Uint63.of_Z (Z.of_nat n)).

(** [floor(scale * x + 1/2)] for a finite binary64 [x], computed on the exact
    value [m * 2^e] of [x]: the integer nearest to [scale * x], the larger
    one on a tie. *)
Definition scaledRound (scale : Z) (x : float) : Z :=
  match Prim2SF x with
  | S754_finite sign m e =>
      let n := (if sign then - (scale * Zpos m) else scale * Zpos m)%Z in
      if (0 <=? e)%Z then (n * 2 ^ e)%Z
      else ((2 * n + 2 ^ (- e)) / (2 * 2 ^ (- e)))%Z
  | _ => 0%Z
  end.

(** [Math.round(x)] *)
Definition mathRound (x : float) : Z := scaledRound 1 x.

(** [x.toFixed(2)] for [0 <= x], read as a count of hundredths: the digits
    are those of the integer [n] for which [n / 100 - x] is closest to zero,
    the larger [n] on a tie. *)
Definition toFixed2 (x : float) : Z := scaledRound 100 x.

(** [Math.ceil(a / b)] for array lengths [a] and a positive integer [b]:
    below 2^32 the binary64 quotient of two integers is an integer only if
    the exact one is, so the ceiling is that of the exact quotient. *)
Definition ceilDiv (a b : nat) : nat := (a + b - 1) / b.

End Num.
Import Num.

(** ** The compiler of [index.js] *)

Definition STOPWORDS : list str := map lit [
  "the"; "and"; "for"; "with"; "this"; "that"; "from"; "into"; "your";
  "when"; "where"; "what"; "which"; "will";
  "are"; "is"; "to"; "of"; "on"; "in"; "by"; "or"; "as"; "an"; "a"; "be";
  "at"; "it"; "if"; "else"; "then";
  "我们"; "你们"; "他们"; "可以"; "需要"; "进行"; "以及"; "通过"; "一个";
  "一种"; "这些"; "那些"; "为了"; "相关";
  "使用"; "方法"; "步骤"; "说明"; "内容"; "处理"; "系统"; "模块"; "结果";
  "生成"; "分析"; "执行"; "支持"; "包括" ]%string.

Definition STOPWORDS_EN : list str := map lit [
  "the"; "and"; "for"; "with"; "this"; "that"; "from"; "into"; "your";
  "when"; "where"; "what"; "which"; "will";
  "are"; "is"; "to"; "of"; "on"; "in"; "by"; "or"; "as"; "an"; "a"; "be";
  "at"; "it"; "if"; "else"; "then";
  "can"; "should"; "could"; "would"; "using"; "used"; "use"; "also"; "such";
  "than"; "been"; "was"; "were" ]%string.

Definition STOPWORDS_ZH : list str := map lit [
  "我们"; "你们"; "他们"; "可以"; "需要"; "进行"; "以及"; "通过"; "一个";
  "一种"; "这些"; "那些"; "为了"; "相关";
  "使用"; "方法"; "步骤"; "说明"; "内容"; "处理"; "系统"; "模块"; "结果";
  "生成"; "分析"; "执行"; "支持"; "包括";
  "实现"; "进行中"; "提供"; "根据"; "其中"; "如何"; "什么"; "为什么"; "然后";
  "否则"; "如果"; "当"; "并且" ]%string.

(** [/\bif\b.+\bthen\b/gi], [/\bif\b.+/gi], ..., [/异常.+/g] *)
Definition CONDITIONAL_PATTERNS : list regex := [
  cat [Wb; wordCI (lit "if"); Wb; Rep isDot 1; Wb; wordCI (lit "then"); Wb];
  cat [Wb; wordCI (lit "if"); Wb; Rep isDot 1];
  cat [Wb; wordCI (lit "when"); Wb; Rep isDot 1];
  cat [Wb; wordCI (lit "unless"); Wb; Rep isDot 1];
  cat [Wb; wordCI (lit "else"); Wb; Rep isDot 1];
  cat [word (lit "如果"); Rep isDot 1];
  cat [word (lit "若"); Rep isDot 1];
  cat [word (lit "当"); Rep isDot 1];
  cat [word (lit "否则"); Rep isDot 1];
  cat [word (lit "异常"); Rep isDot 1] ].

(** [/^\s*(\d+[.)、]|[-*])\s+(.+)/] and
    [/^\s*(第[一二三四五六七八九十0-9]+步)\s*[：:、]?\s*(.+)$/] *)
Definition STEP_PATTERNS : list regex := [
  cat [Bol; Rep isWs 0;
       Grp 1 (Alt (Seq (Rep isDigit 1) (Cls (oneOf (lit ".)、"))))
                  (Cls (oneOf (lit "-*"))));
       Rep isWs 1; Grp 2 (Rep isDot 1)];
  cat [Bol; Rep isWs 0;
       Grp 1 (cat [word (lit "第");
                   Rep (fun c => oneOf (lit "一二三四五六七八九十") c
                                 || isDigit c) 1;
                   word (lit "步")]);
       Rep isWs 0; Opt (oneOf (lit "：:、")); Rep isWs 0;
       Grp 2 (Rep isDot 1); Eol] ].

(** The blank line [current.join("\n\n")] puts between blocks. *)
Definition nn : str := [10; 10]%N.
Definition nl : str := [10]%N.

(** [`skill-${String(index + 1).padStart(3, "0")}`] *)
Definition skillId (index : nat) : str :=
  lit "skill-" ++ padStart0 3 (Str.ofNat (index + 1)).

Definition toTitle (line : str) (index : nat) : str :=
  let clean :=
    trim
      (dropEndWhile (oneOf (lit "。.!?；;:："))
         (dropWhile (fun c => oneOf (lit "-*#.") c || isDigit c || isWs c)
            line)) in
  if nonEmpty clean then
    if 42 <? length clean then slice 0 42 clean else clean
  else skillId index.

Definition isBlank (c : char) : bool := (c =? 32)%N || (c =? 160)%N.

(** [.replace(/[ \u00A0]+/g, " ")] *)
Fixpoint collapseBlanksFrom (inrun : bool) (s : str) : str :=
  match s with
  | [] => []
  | c :: r =>
      if isBlank c then
        if inrun then collapseBlanksFrom true r
        else 32%N :: collapseBlanksFrom true r
      else c :: collapseBlanksFrom false r
  end.

(** [.replace(/\n{3,}/g, "\n\n")]: [seen] counts the line feeds kept of the
    run being read. *)
Fixpoint collapseNewlinesFrom (seen : nat) (s : str) : str :=
  match s with
  | [] => []
  | c :: r =>
      if (c =? 10)%N then
        if 2 <=? seen then collapseNewlinesFrom seen r
        else c :: collapseNewlinesFrom (S seen) r
      else c :: collapseNewlinesFrom 0 r
  end.

Definition normalizeText (text : str) : str :=
  trim
    (collapseNewlinesFrom 0
       (collapseBlanksFrom false
          (map (fun c => if (c =? 9)%N then 32%N else c)
             (filter (fun c => negb (c =? 13)%N) text)))).

Definition splitSemanticBlocks (text : str) : list str :=
  filter (fun x => 40 <=? length (stripWs x))
    (filter nonEmpty (map trim (splitBlank text))).

(** [block.split(/\s+/).filter(Boolean).length] *)
Definition wordCount (block : str) : nat :=
  length (filter nonEmpty (splitWs block)).

Definition targetMinWords : nat := 140.
Definition targetMaxWords : nat := 280.

(** The first loop of [chunkBlocks], with its three variables. *)
Fixpoint chunkLoop (blocks : list str) (chunks : list str)
    (current : list str) (currentWords : nat) : list str :=
  match blocks with
  | [] =>
      if 0 <? length current then chunks ++ [join nn current] else chunks
  | block :: rest =>
      let words := wordCount block in
      if (0 <? length current)
         && ((targetMaxWords <? currentWords + words)
             || (targetMinWords <=? currentWords))
      then chunkLoop rest (chunks ++ [join nn current]) [block] words
      else chunkLoop rest chunks (current ++ [block]) (currentWords + words)
  end.

Definition rawChunks (blocks : list str) : list str :=
  chunkLoop blocks [] [] 0.

(** The second loop of [chunkBlocks]: [None] when [fuel] iterations did not
    reach its exit. *)
Fixpoint reduceLoop (fuel : nat) (chunks : list str) (ratio i : nat)
    (reduced : list str) : option (list str) :=
  match fuel with
  | 0 => None
  | S fuel' =>
      if i <? length chunks then
        reduceLoop fuel' chunks ratio (i + ratio)
          (reduced ++ [join nn (slice i (i + ratio) chunks)])
      else Some reduced
  end.

(** [chunkBlocks] for a ceiling that is not negative ([chunkBlocksZ] below
    takes any integer).  With [maxChunks = 0] and a chunk to reduce, [ratio]
    is [Infinity], the loop runs once and [slice(0, 0)] keeps nothing. *)
Definition chunkBlocks (blocks : list str) (maxChunks : nat) : list str :=
  let chunks := rawChunks blocks in
  if length chunks <=? maxChunks then chunks
  else
    match maxChunks with
    | 0 => []
    | S _ =>
        let ratio := ceilDiv (length chunks) maxChunks in
        match reduceLoop (S (length chunks)) chunks ratio 0 [] with
        | Some reduced => slice 0 maxChunks reduced
        | None => []
        end
    end.

(** [Array.prototype.slice] with any integers: an index below zero counts
    from the end of the array. *)
Definition relIndex (len : nat) (k : Z) : nat :=
  if (k <? 0)%Z then Z.to_nat (Z.max (Z.of_nat len + k) 0)
  else Nat.min (Z.to_nat k) len.

Definition sliceZ {A : Type} (i j : Z) (l : list A) : list A :=
  slice (relIndex (length l) i) (relIndex (length l) j) l.

(** [Math.ceil(a / b)] for integers, [b] not zero. *)
Definition ceilDivZ (a b : Z) : Z := (- ((- a) / b))%Z.

(** The second loop of [chunkBlocks] with an integer [ratio], as a negative
    [maxChunks] gives: [None] when [fuel] iterations did not reach its
    exit. *)
Fixpoint reduceLoopZ (fuel : nat) (chunks : list str) (ratio i : Z)
    (reduced : list str) : option (list str) :=
  match fuel with
  | 0 => None
  | S fuel' =>
      if (i <? Z.of_nat (length chunks))%Z then
        reduceLoopZ fuel' chunks ratio (i + ratio)%Z
          (reduced ++ [join nn (sliceZ i (i + ratio) chunks)])
      else Some reduced
  end.

(** [chunkBlocks] for any integer [maxChunks]: [None] when the second loop
    has not ended after [fuel] iterations. *)
Definition chunkBlocksZ (fuel : nat) (blocks : list str) (maxChunks : Z)
    : option (list str) :=
  if (0 <=? maxChunks)%Z then Some (chunkBlocks blocks (Z.to_nat maxChunks))
  else
    let chunks := rawChunks blocks in
    if (Z.of_nat (length chunks) <=? maxChunks)%Z then Some chunks
    else
      let ratio := ceilDivZ (Z.of_nat (length chunks)) maxChunks in
      match reduceLoopZ fuel chunks ratio 0 [] with
      | Some reduced => Some (sliceZ 0 maxChunks reduced)
      | None => None
      end.

Inductive langMode : Type := auto | zh | en.

Definition detectLanguage (text : str) : langMode :=
  let zhCount := length (filter isCjk text) in
  let enCount := length (filter isLatin text) in
  if (zhCount =? 0) && (enCount =? 0) then auto
  else if enCount <=? zhCount then zh else en.

(** [/[一-龥]{2,}/g], [/[a-z0-9]{3,}/g] and their alternation. *)
Definition zhRun : regex := Rep isCjk 2.
Definition enRun : regex := Rep isLowerAlnum 3.

Definition without (stop : list str) (tokens : list str) : list str :=
  filter (fun x => negb (mem x stop)) tokens.

Section Compiler.

(** [String.prototype.toLowerCase], the engine's Unicode case mapping. *)
Variable toLowerCase : str -> str.

Definition tokenize (text : str) (mode : langMode) : list str :=
  let selectedLang :=
    match mode with auto => detectLanguage text | _ => mode end in
  match selectedLang with
  | zh =>
      let zhTokens := without STOPWORDS_ZH (matchAll zhRun text) in
      if 0 <? length zhTokens then zhTokens
      else without STOPWORDS_EN (matchAll enRun (toLowerCase text))
  | en =>
      let enTokens :=
        without STOPWORDS_EN (matchAll enRun (toLowerCase text)) in
      if 0 <? length enTokens then enTokens
      else without STOPWORDS_ZH (matchAll zhRun text)
  | auto =>
      without STOPWORDS (matchAll (Alt enRun zhRun) (toLowerCase text))
  end.

(** [freq.set(token, (freq.get(token) || 0) + 1)] *)
Definition countToken (freq : list (str * nat)) (token : str)
  : list (str * nat) :=
  mapSet token
    (match mapGet token freq with Some n => n | None => 0 end + 1) freq.

(** [.sort((a, b) => b[1] - a[1])].  The sort is stable (ECMAScript 2019),
    so its result is the one of inserting each entry, from the last to the
    first, before the first entry that does not have a larger count. *)
Fixpoint insertByCount (x : str * nat) (l : list (str * nat))
  : list (str * nat) :=
  match l with
  | [] => [x]
  | y :: l' => if snd x <? snd y then y :: insertByCount x l' else x :: l
  end.
Definition sortByCount (l : list (str * nat)) : list (str * nat) :=
  fold_right insertByCount [] l.

Definition topKeywords (text : str) (limit : nat) (mode : langMode)
  : list str :=
  let freq := fold_left countToken (tokenize text mode) [] in
  map fst (slice 0 limit (sortByCount freq)).


(** [a || b] on a match group and a string: [a] unless it is [undefined]
    or empty. *)
Definition orElse (a : option str) (b : str) : str :=
  match a with
  | Some (x :: v) => x :: v
  | _ => b
  end.

(** The inner loop of [extractSteps]: the first pattern that matches. *)
Fixpoint firstMatch (ps : list regex) (line : str) : option caps :=
  match ps with
  | [] => None
  | p :: ps' =>
      match exec p line with
      | Some (_, m) => Some m
      | None => firstMatch ps' line
      end
  end.

Definition stepOfLine (out : list str) (line : str) : list str :=
  match firstMatch STEP_PATTERNS line with
  | Some m =>
      let val := trim (orElse (group 2 m) (orElse (group 1 m) [])) in
      if nonEmpty val && (4 <? length val) then out ++ [val] else out
  | None => out
  end.

Definition extractSteps (text : str) : list str :=
  slice 0 8 (fold_left stepOfLine (splitLines text) []).

Definition conditionsOfPattern (text : str) (found : list str) (p : regex)
  : list str :=
  fold_left
    (fun found m =>
       let clean := trim (collapseWs m) in
       if (8 <=? length clean) && (length clean <=? 100)
       then found ++ [clean] else found)
    (matchAll p text) found.

Definition extractConditions (text : str) : list str :=
  slice 0 8
    (setOf (fold_left (conditionsOfPattern text) CONDITIONAL_PATTERNS [])).

(** [estimateRoutingScore(item, queryTokens)], the item given by the three
    fields the function reads. *)
Definition estimateRoutingScore (keywords steps conditions : list str)
    (queryTokens : list str) : Z :=
  if length queryTokens =? 0 then 60%Z
  else
    let kw := setOf keywords in
    let overlap := length (filter (fun x => mem x kw) queryTokens) in
    let density :=
      Z.min 25
        (mathRound (Num.ofNat (length keywords) / 12 * 25)%float) in
    let conditionBonus := Z.min 20 (Z.of_nat (length conditions * 4)) in
    let stepBonus := Z.min 15 (Z.of_nat (length steps * 3)) in
    let overlapScore := Z.min 40 (Z.of_nat (overlap * 8)) in
    Z.max 0
      (Z.min 100 (overlapScore + density + conditionBonus + stepBonus)).

Definition jaccard (a b : list str) : float :=
  let sa := setOf a in
  let sb := setOf b in
  if (length sa =? 0) && (length sb =? 0) then 0%float
  else
    let inter := length (filter (fun x => mem x sb) sa) in
    let union := length sa + length sb - inter in
    if union =? 0 then 0%float
    else (Num.ofNat inter / Num.ofNat union)%float.

Record item : Type := Item {
  id : str;
  title : str;
  trigger : str;
  content : str;
  keywords : list str;
  steps : list str;
  conditions : list str;
  baseScore : Z
}.

(** [weight] counts hundredths: [Number(score.toFixed(2))] is the binary64
    number nearest to [weight / 100]. *)
Record edge : Type := Edge {
  from : str;
  to : str;
  weight : Z
}.

Definition indexed {A} (l : list A) : list (nat * A) :=
  combine (List.seq 0 (length l)) l.

(** The nested loops of [buildDependencies]. *)
Definition allDeps (items : list item) : list edge :=
  flat_map
    (fun '(i, a) =>
       flat_map
         (fun '(j, b) =>
            if i =? j then []
            else
              let score := jaccard (keywords a) (keywords b) in
              if (0.22 <=? score)%float
              then [Edge (id a) (id b) (toFixed2 score)]
              else [])
         (indexed items))
    (indexed items).

(** [`${d.from}->${d.to}`] *)
Definition edgeKey (d : edge) : str := from d ++ lit "->" ++ to d.

Definition buildDependencies (items : list item) : list edge :=
  let deps := allDeps items in
  let dedup := fold_left (fun m d => mapSet (edgeKey d) d m) deps [] in
  map snd dedup.

(** Lines 508-526 of [run]: the item of one chunk. *)
Definition skillItem (mode : langMode) (idx : nat) (chunk : str) : item :=
  let firstLine := hd [] (splitLines chunk) in
  let title := toTitle firstLine idx in
  let keywords := topKeywords chunk 12 mode in
  let steps := extractSteps chunk in
  let conditions := extractConditions chunk in
  let baseScore :=
    estimateRoutingScore keywords steps conditions (slice 0 5 keywords) in
  {| id := skillId idx;
     title := title;
     trigger :=
       if 24 <? length title then slice 0 24 title ++ lit "..." else title;
     content := chunk;
     keywords := keywords;
     steps := steps;
     conditions := conditions;
     baseScore := baseScore |}.

Definition skillItems (mode : langMode) (clippedChunks : list str)
  : list item :=
  map (fun '(idx, chunk) => skillItem mode idx chunk) (indexed clippedChunks).


(** *** The manifest *)

Definition quote : str := [34]%N.
Definition backtick : str := [96]%N.

Definition lines (l : list str) : str := join nl l.

Definition buildMainSkillMd (skillName description : str) (chunkCount : nat)
  : str :=
  lines [
    lit "---";
    lit "name: " ++ skillName;
    lit "description: " ++ description;
    lit "version: 0.1.0";
    lit "---";
    [];
    lit "# " ++ skillName;
    [];
    lit "This skill pack is auto-compiled from a source PDF.";
    [];
    lit "## How it works";
    [];
    lit "- Claude/OpenCode reads `skills/index.md` to route sub-skills.";
    lit "- Each `skills/skill-xxx.md` contains one atomic capability unit.";
    lit "- Use this pack when user intent matches a topic in the source book/manual.";
    [];
    lit "## Routing";
    [];
    lit "When request includes concepts, methods, procedures, troubleshooting, or checklist";
    lit "from this domain, select the most relevant atomic skill in `skills/index.md`.";
    [];
    lit "## Stats" ++ nn ++ lit "- Generated atomic skills: "
      ++ Str.ofNat chunkCount;
    lit "- Routing metadata: `skills/routes.json`";
    lit "- Dependency graph: `skills/dependency-graph.md`" ].

Definition buildAtomicSkillMd (index : Z) (title content : str)
    (keywords steps conditions : list str) : str :=
  let id := lit "skill-" ++ padStart0 3 (Str.ofZ (index + 1)) in
  lines
    ([ lit "---";
       lit "name: " ++ id;
       lit "description: " ++ title;
       lit "---";
       [];
       lit "# " ++ title;
       [];
       lit "## Trigger";
       [];
       lit "Use this skill when the user asks about: " ++ title;
       [];
       lit "**Keywords**: " ++ join (lit ", ") keywords;
       [];
       lit "## Input";
       [];
       lit "- User objective";
       lit "- Current constraints and context";
       [];
       lit "## Procedure";
       [];
       lit "1. Extract the user's concrete target.";
       lit "2. Map target to the applicable rules/methods below.";
       lit "3. Output a concise, actionable plan.";
       [];
       lit "## Extracted Steps";
       [] ]
     ++ (if 0 <? length steps
         then map (fun '(idx2, s) => Str.ofNat (idx2 + 1) ++ lit ". " ++ s)
                (indexed steps)
         else [lit "1. No explicit numbered steps found in source."])
     ++ [ [];
          lit "## Conditions / Branches";
          [] ]
     ++ (if 0 <? length conditions
         then map (fun c => lit "- " ++ c) conditions
         else [lit "- No explicit IF/ELSE style branch found in source."])
     ++ [ [];
          lit "## Knowledge";
          [];
          content ]).

(** [`${minScore}`]: [parseInt] gives an integer or [NaN] ([None]). *)
Definition showScore (minScore : option Z) : str :=
  match minScore with Some z => Str.ofZ z | None => lit "NaN" end.

(** The array [lines] of [buildIndexMd] before it is joined. *)
Definition indexLines (items : list item) (minScore : option Z) : list str :=
  [ lit "# Skill Index";
    [];
    lit "This file routes user requests to atomic skills.";
    [];
    lit "Routing score cutoff: " ++ showScore minScore;
    [];
    lit "| Skill ID | Topic | Trigger Hint | Base Score |";
    lit "|---|---|---|---|" ]
  ++ map (fun it =>
            lit "| " ++ id it ++ lit " | " ++ title it ++ lit " | "
              ++ trigger it ++ lit " | " ++ Str.ofZ (baseScore it)
              ++ lit " |")
       items.

Definition buildIndexMd (items : list item) (minScore : option Z) : str :=
  lines (indexLines items minScore).

(** [`${d.weight}`]: the shortest decimal that reads back as the number
    nearest to [weight / 100], for [0 <= weight <= 100]. *)
Definition showWeight (w : Z) : str :=
  if (w =? 100)%Z then lit "1"
  else if (w =? 0)%Z then lit "0"
  else
    lit "0." ++ Str.ofZ (w / 10)
      ++ (if (w mod 10 =? 0)%Z then [] else Str.ofZ (w mod 10)).

Definition buildDependencyGraphMd (items : list item) (deps : list edge)
  : str :=
  lines
    ([ lit "# Dependency Graph";
       [];
       lit "```mermaid";
       lit "graph LR" ]
     ++ map (fun it =>
               lit "  " ++ id it ++ lit "[" ++ quote ++ id it ++ lit ": "
                 ++ map (fun c => if (c =? 34)%N then 39%N else c) (title it)
                 ++ quote ++ lit "]")
          items
     ++ map (fun d =>
               lit "  " ++ from d ++ lit " -->|" ++ showWeight (weight d)
                 ++ lit "| " ++ to d)
          deps
     ++ [ lit "```";
          [];
          lit "## Notes";
          [];
          lit "- Edge weight is keyword-overlap similarity (Jaccard).";
          lit "- Use stronger links first when composing multi-skill answers." ]).

(** The object [buildRoutesJson] hands to [JSON.stringify]. *)
Record routeSkill : Type := RouteSkill {
  rs_id : str;
  rs_title : str;
  rs_trigger : str;
  rs_baseScore : Z;
  rs_keywords : list str
}.

Record routes : Type := Routes {
  version : str;
  minScore : option Z;
  skills : list routeSkill;
  dependencies : list edge
}.

Definition buildRoutesJson (items : list item) (deps : list edge)
    (minScore : option Z) : routes :=
  {| version := lit "0.2.0";
     minScore := minScore;
     skills :=
       map (fun x =>
              RouteSkill (id x) (title x) (trigger x) (baseScore x)
                (keywords x))
         items;
     dependencies := deps |}.

(** *** [run], from the extracted text on *)

(** The arguments [run] reads after [parseArgs]: [maxChunks] and
    [minScore] are the integers [parseInt] gave, [None] for a value that is
    not finite ([NaN]); [mode] is [langMode]; [skillName] is the slug;
    [inputCount] is [inputPaths.length]. *)
Record args : Type := Args {
  maxChunks : option Z;
  cutoff : option Z;
  mode : langMode;
  skillName : str;
  inputCount : nat
}.

Inductive failure : Type :=
| EmptyExtraction    (* "Failed to extract text from PDF (empty output)" *)
| NoSemanticContent. (* "No meaningful semantic chunks extracted from PDF" *)

Inductive fileBody : Type :=
| Text (s : str)
| Json (r : routes).

Record pack : Type := Pack {
  packItems : list item;
  packDeps : list edge;
  files : list (str * fileBody)
}.

(** How [run] ends: with the files to write, with an error thrown, or not
    at all. *)
Inductive outcome : Type :=
| Compiled (p : pack)
| Failed (e : failure)
| NeverReturns.

Definition langName (m : langMode) : str :=
  match m with auto => lit "auto" | zh => lit "zh" | en => lit "en" end.

(** [Number(s)] for a string of decimal digits. *)
Definition numberOf (s : str) : Z :=
  fold_left (fun n c => (10 * n + (Z.of_N c - 48))%Z) s 0%Z.

Definition readme (a : args) : str :=
  lines [
    lit "# " ++ skillName a;
    [];
    lit "Generated by pdf2skill-lite.";
    [];
    lit "Language mode: " ++ langName (mode a);
    lit "Input files: " ++ Str.ofNat (inputCount a);
    [];
    lit "## Files";
    [];
    lit "- `SKILL.md`: entry skill";
    lit "- `skills/index.md`: router index";
    lit "- `skills/skill-xxx.md`: atomic skills";
    lit "- `references/source_excerpt.md`: extracted source text";
    [];
    lit "## Install";
    [];
    lit "Copy this folder to your skill directory." ].

(** [Number.isFinite(args.maxChunks) ? args.maxChunks : 24] *)
Definition ceiling (a : args) : Z :=
  match maxChunks a with Some n => n | None => 24%Z end.

(** The chunks that become items (lines 500-502); [None] when [chunkBlocks]
    does not return.  The second loop of [chunkBlocks] has ended after one
    iteration for each raw chunk and one more, if it ends at all. *)
Definition clippedChunks (a : args) (normalized : str) : option (list str) :=
  let blocks := splitSemanticBlocks normalized in
  match
    chunkBlocksZ (S (length (rawChunks blocks))) blocks (ceiling a)
  with
  | Some chunks => Some (filter (fun x => 80 <? length (stripWs x)) chunks)
  | None => None
  end.

Definition manifest (a : args) (normalized : str) (items : list item)
    (deps : list edge) : list (str * fileBody) :=
  let desc :=
    lit "Auto-compiled from " ++ Str.ofNat (inputCount a)
      ++ lit " PDF file(s). Includes " ++ Str.ofNat (length items)
      ++ lit " atomic skills." in
  [ (lit "SKILL.md",
     Text (buildMainSkillMd (skillName a) desc (length items)));
    (lit "README.md", Text (readme a));
    (lit "skills/index.md", Text (buildIndexMd items (cutoff a)));
    (lit "skills/dependency-graph.md",
     Text (buildDependencyGraphMd items deps));
    (lit "skills/routes.json", Json (buildRoutesJson items deps (cutoff a))) ]
  ++ map (fun it =>
            (lit "skills/" ++ id it ++ lit ".md",
             Text (buildAtomicSkillMd
                     (numberOf (skipn (length (id it) - 3) (id it)) - 1)
                     (title it) (content it) (keywords it) (steps it)
                     (conditions it))))
       items
  ++ [ (lit "references/source_excerpt.md",
        Text (slice 0 120000 normalized)) ].

(** [run] from line 494 on; [text] is [extracted.join("\n\n")]. *)
Definition compile (a : args) (text : str) : outcome :=
  let normalized := normalizeText text in
  if nonEmpty normalized then
    match clippedChunks a normalized with
    | None => NeverReturns
    | Some clipped =>
        if length clipped =? 0 then Failed NoSemanticContent
        else
          let items := skillItems (mode a) clipped in
          let deps := buildDependencies items in
          Compiled (Pack items deps (manifest a normalized items deps))
    end
  else Failed EmptyExtraction.


(** Lines 485-493 of [run]: each input is its file name and the text the
    PDF reader gave for it.  [run] comes here with at least one input, past
    the usage check of lines 467-470 and the file check of lines 475-479. *)
Definition extracted (inputs : list (str * str)) : list str :=
  flat_map
    (fun '(basename, parsedText) =>
       let normalizedSingle := normalizeText parsedText in
       if nonEmpty normalizedSingle
       then [lit "## Source: " ++ basename ++ nn ++ normalizedSingle]
       else [])
    inputs.

End Compiler.

(** Lower-casing of Basic Latin, with which [toLowerCase] agrees on every
    string of code units below 128. *)
Definition asciiLower (s : str) : str :=
  map (fun c => if isUpper c then (c + 32)%N else c) s.

(** ** Definitions used to state the properties *)

Module Forms.

(** No carriage return and no tab. *)
Definition plain (c : char) : Prop := c <> 13%N /\ c <> 9%N.

(** After a blank if [b], the string has no no-break space and no two
    blanks in a row. *)
Fixpoint blankOk (b : bool) (s : str) : Prop :=
  match s with
  | [] => True
  | c :: r =>
      if isBlank c then b = false /\ c = 32%N /\ blankOk true r
      else blankOk false r
  end.

(** After [k] line feeds, the string has no three line feeds in a row. *)
Fixpoint lfOk (k : nat) (s : str) : Prop :=
  match s with
  | [] => True
  | c :: r => if (c =? 10)%N then k < 2 /\ lfOk (S k) r else lfOk 0 r
  end.

Definition normal (s : str) : Prop :=
  Forall plain s /\ blankOk false s /\ lfOk 0 s.

(** A paragraph: no blank line (two line feeds in a row) inside. *)
Fixpoint blankLineFree (p : str) : bool :=
  match p with
  | [] => true
  | c :: r =>
      negb ((c =? 10)%N
            && match r with c' :: _ => (c' =? 10)%N | [] => false end)
      && blankLineFree r
  end.

(** The number of words [splitWs] will still close, [pending] telling
    whether one has been opened. *)
Fixpoint wordsFrom (pending : bool) (s : str) : nat :=
  match s with
  | [] => if pending then 1 else 0
  | c :: r =>
      if isWs c then (if pending then 1 else 0) + wordsFrom false r
      else wordsFrom true r
  end.

(** The file of a manifest at a path. *)
Fixpoint fileOf (path : str) (fs : list (str * fileBody)) : option fileBody :=
  match fs with
  | [] => None
  | (p, b) :: fs' => if Str.eqb path p then Some b else fileOf path fs'
  end.

(** The rows of the table of [skills/index.md]: its lines after the eight
    lines of heading. *)
Definition tableRows (md : str) : list str := skipn 8 (splitLines md).

Definition noLF (s : str) : Prop := Forall (fun c => c <> 10%N) s.

(** The number of items of a run, and the number of rows of the table in
    its [skills/index.md]; [None] for a run that does not compile. *)
Definition itemCount (o : outcome) : option nat :=
  match o with
  | Compiled p => Some (length (packItems p))
  | Failed _ => None
  | NeverReturns => None
  end.

Definition indexRowCount (o : outcome) : option nat :=
  match o with
  | Compiled p =>
      match fileOf (lit "skills/index.md") (files p) with
      | Some (Text md) => Some (length (tableRows md))
      | _ => None
      end
  | Failed _ => None
  | NeverReturns => None
  end.

(** Inputs on which the statements are run. *)
Definition sampleArgs : args :=
  Args (Some 24%Z) (Some 55%Z) auto (lit "demo") 1.



(** [n] times the word [w], separated by spaces. *)
Definition wordsOf (w : str) (n : nat) : str := join [32%N] (repeat w n).

(** Two paragraphs, of 140 and of 10 words. *)
Definition longShort : str :=
  wordsOf (lit "alpha") 140 ++ nn ++ wordsOf (lit "betagamma") 10.

(** Two paragraphs of 60 words each. *)
Definition twoShort : str :=
  wordsOf (lit "alpha") 60 ++ nn ++ wordsOf (lit "betagamma") 60.

(** Eight bullet lines, then the numbered line. *)
Definition nineSteps : str :=
  join nl (repeat (lit "- tighten the bolts") 8 ++ [lit "1. Open the valve"]).

End Forms.
Import Forms.

(** ** More of [index.js]: the skill name and the command line *)

(** [[a-z0-9一-龥]], the characters [slugify] keeps. *)
Definition isSlugChar (c : char) : bool := isLower c || isDigit c || isCjk c.

(** [.replace(/[^a-z0-9一-龥]+/g, "-")] *)
Fixpoint hyphenateFrom (inrun : bool) (s : str) : str :=
  match s with
  | [] => []
  | c :: r =>
      if isSlugChar c then c :: hyphenateFrom false r
      else if inrun then hyphenateFrom true r
      else 45%N :: hyphenateFrom true r
  end.

(** [.replace(/-+/g, "-")] *)
Fixpoint collapseHyphensFrom (inrun : bool) (s : str) : str :=
  match s with
  | [] => []
  | c :: r =>
      if (c =? 45)%N then
        if inrun then collapseHyphensFrom true r
        else 45%N :: collapseHyphensFrom true r
      else c :: collapseHyphensFrom false r
  end.

(** [.replace(/^-|-$/g, "")]: the hyphen at the start goes, and the hyphen
    at the end. *)
Definition stripFirstHyphen (s : str) : str :=
  match s with
  | c :: r => if (c =? 45)%N then r else s
  | [] => []
  end.

Fixpoint stripLastHyphen (s : str) : str :=
  match s with
  | [] => []
  | [c] => if (c =? 45)%N then [] else [c]
  | c :: r => c :: stripLastHyphen r
  end.

(** [s.split(",")] and the like: the pieces between occurrences of one
    code unit. *)
Fixpoint splitCharFrom (sep : char) (cur : str) (s : str) : list str :=
  match s with
  | [] => [rev cur]
  | c :: r =>
      if (c =? sep)%N then rev cur :: splitCharFrom sep [] r
      else splitCharFrom sep (c :: cur) r
  end.
Definition splitChar (sep : char) (s : str) : list str :=
  splitCharFrom sep [] s.

Section CommandLine.

Variable toLowerCase : str -> str.

(** [slugify] of [index.js], which [sanitizeSkillName] of the server
    repeats. *)
Definition slugify (name : str) : str :=
  stripLastHyphen
    (stripFirstHyphen
       (collapseHyphensFrom false
          (hyphenateFrom false (toLowerCase (trim name))))).

(** The numbers of the engine, with [Number.parseInt(val, 10)] on a string
    or [undefined] ([None]), and the current directory of the process. *)
Variable number : Type.
Variable numberOfZ : Z -> number.
Variable parseInt10 : option str -> number.
Variable cwd : str.

(** The object [parseArgs] builds; [None] is [undefined]. *)
Record cliArgs : Type := CliArgs {
  cli_outdir : option str;
  cli_maxChunks : number;
  cli_minScore : number;
  cli_lang : str;
  cli_inputs : list (option str);
  cli_name : option str;
  cli_help : bool
}.

(** [String(x)] *)
Definition stringOf (x : option str) : str :=
  match x with Some s => s | None => lit "undefined" end.

(** Lines 69-73: the inputs split at commas, trimmed, the empty ones
    dropped. *)
Definition cleanInputs (inputs : list (option str)) : list (option str) :=
  map Some
    (filter nonEmpty
       (map trim (flat_map (fun x => splitChar 44 (stringOf x)) inputs))).

Definition finishArgs (a : cliArgs) : cliArgs :=
  CliArgs (cli_outdir a) (cli_maxChunks a) (cli_minScore a) (cli_lang a)
    (cleanInputs (cli_inputs a)) (cli_name a) (cli_help a).

(** The loop of [parseArgs] from [argv[i]] on: [key] is [argv[i]], [val]
    is [argv[i + 1]], and an option that takes a value passes over it. *)
Fixpoint parseLoop (a : cliArgs) (argv : list str) : cliArgs :=
  match argv with
  | [] => finishArgs a
  | key :: rest =>
      let val := hd_error rest in
      let isKey (long short : str) := Str.eqb key long || Str.eqb key short in
      if isKey (lit "--help") (lit "-h") then
        CliArgs (cli_outdir a) (cli_maxChunks a) (cli_minScore a)
          (cli_lang a) (cli_inputs a) (cli_name a) true
      else
        let a' :=
          if isKey (lit "--input") (lit "-i") then
            Some (CliArgs (cli_outdir a) (cli_maxChunks a) (cli_minScore a)
                    (cli_lang a) (cli_inputs a ++ [val]) (cli_name a)
                    (cli_help a))
          else if isKey (lit "--name") (lit "-n") then
            Some (CliArgs (cli_outdir a) (cli_maxChunks a) (cli_minScore a)
                    (cli_lang a) (cli_inputs a) val (cli_help a))
          else if isKey (lit "--outdir") (lit "-o") then
            Some (CliArgs val (cli_maxChunks a) (cli_minScore a)
                    (cli_lang a) (cli_inputs a) (cli_name a) (cli_help a))
          else if Str.eqb key (lit "--max-chunks") then
            Some (CliArgs (cli_outdir a) (parseInt10 val) (cli_minScore a)
                    (cli_lang a) (cli_inputs a) (cli_name a) (cli_help a))
          else if Str.eqb key (lit "--min-score") then
            Some (CliArgs (cli_outdir a) (cli_maxChunks a) (parseInt10 val)
                    (cli_lang a) (cli_inputs a) (cli_name a) (cli_help a))
          else if Str.eqb key (lit "--lang") then
            Some (CliArgs (cli_outdir a) (cli_maxChunks a) (cli_minScore a)
                    (toLowerCase
                       (match val with
                        | Some (c :: v) => c :: v
                        | _ => lit "auto"
                        end))
                    (cli_inputs a) (cli_name a) (cli_help a))
          else None in
        match a' with
        | Some a1 =>
            match rest with
            | [] => finishArgs a1
            | _ :: rest' => parseLoop a1 rest'
            end
        | None => parseLoop a rest
        end
  end.

(** [parseArgs(argv)]: the loop starts at [argv[2]]. *)
Definition parseArgs (argv : list str) : cliArgs :=
  parseLoop
    (CliArgs (Some cwd) (numberOfZ 24) (numberOfZ 55) (lit "auto") [] None
       false)
    (skipn 2 argv).

End CommandLine.

Arguments CliArgs {number}.
Arguments cli_outdir {number}.
Arguments cli_maxChunks {number}.
Arguments cli_minScore {number}.
Arguments cli_lang {number}.
Arguments cli_inputs {number}.
Arguments cli_name {number}.
Arguments cli_help {number}.
Arguments finishArgs {number} a.
Arguments parseLoop toLowerCase {number} parseInt10 a argv.
Arguments parseArgs toLowerCase {number} numberOfZ parseInt10 cwd argv.

(** ** More definitions used to state properties *)

Module MoreForms.

(** The words of a group of blocks. *)
Definition wordsOfGroup (g : list str) : nat :=
  fold_right (fun b n => wordCount b + n) 0 g.

(** A group the first loop of the chunker may build: one block, or at most
    280 words. *)
Definition sized (g : list str) : Prop :=
  length g <= 1 \/ wordsOfGroup g <= targetMaxWords.

(** After a hyphen if [b], the string is made of slug characters and single
    hyphens. *)
Fixpoint hyphenOk (b : bool) (s : str) : Prop :=
  match s with
  | [] => True
  | c :: r =>
      if (c =? 45)%N then b = false /\ hyphenOk true r
      else isSlugChar c = true /\ hyphenOk false r
  end.

(** The index [run] recovers from the id of the item at [idx] when it
    renders the file of the item (line 580). *)
Definition recoveredIndex (idx : nat) : Z :=
  (numberOf (skipn (length (skillId idx) - 3) (skillId idx)) - 1)%Z.

(** The second line of a skill file, which carries its name. *)
Definition nameLine (md : str) : str := nth 1 (splitLines md) [].

(** The decimal numeral a string of digits spells. *)
Fixpoint uintOf (s : str) : Decimal.uint :=
  match s with
  | [] => Decimal.Nil
  | c :: r =>
      (if (c =? 48)%N then Decimal.D0
       else if (c =? 49)%N then Decimal.D1
       else if (c =? 50)%N then Decimal.D2
       else if (c =? 51)%N then Decimal.D3
       else if (c =? 52)%N then Decimal.D4
       else if (c =? 53)%N then Decimal.D5
       else if (c =? 54)%N then Decimal.D6
       else if (c =? 55)%N then Decimal.D7
       else if (c =? 56)%N then Decimal.D8
       else Decimal.D9) (uintOf r)
  end.

(** The pack of a run, empty for a run that does not compile. *)
Definition packOf (o : outcome) : pack :=
  match o with
  | Compiled p => p
  | Failed _ => Pack [] [] []
  | NeverReturns => Pack [] [] []
  end.

(** A command line. *)
Definition sampleArgv : list str :=
  map lit [ "node"; "index.js"; "--input"; " a.pdf , ,b.pdf"; "-n"; "demo";
            "--input"; "c.pdf" ]%string.

End MoreForms.
Import MoreForms.

(** ** Facts on lists *)

Module ListFacts.

Lemma In_firstn {A} n (l : list A) x : In x (firstn n l) -> In x l.
Proof.
  intros H. rewrite <- (firstn_skipn n l). apply in_or_app. now left.
Qed.

Lemma In_skipn {A} n (l : list A) x : In x (skipn n l) -> In x l.
Proof.
  intros H. rewrite <- (firstn_skipn n l). apply in_or_app. now right.
Qed.

Lemma Forall_firstn {A} (P : A -> Prop) n l :
  Forall P l -> Forall P (firstn n l).
Proof.
  intros H. rewrite <- (firstn_skipn n l) in H.
  now apply Forall_app in H.
Qed.

End ListFacts.

(** ** Facts on strings *)

Module StrFacts.

Lemma eqb_eq a b : Str.eqb a b = true <-> a = b.
Proof.
  revert b. induction a as [|x a IH]; intros [|y b]; simpl.
  - tauto.
  - split; discriminate.
  - split; discriminate.
  - rewrite andb_true_iff, N.eqb_eq, IH. split.
    + intros [E1 E2]. now subst.
    + intros H. injection H as E1 E2. now subst.
Qed.

Lemma eqb_refl a : Str.eqb a a = true.
Proof. now apply eqb_eq. Qed.

Lemma eqb_neq a b : Str.eqb a b = false <-> a <> b.
Proof.
  rewrite <- eqb_eq. destruct (Str.eqb a b); split; congruence.
Qed.

Lemma mem_In x l : mem x l = true <-> In x l.
Proof.
  unfold mem. rewrite existsb_exists. split.
  - intros (y & Hy & E). apply eqb_eq in E. now subst.
  - intros H. exists x. split; trivial. apply eqb_refl.
Qed.

Lemma mem_not_In x l : mem x l = false <-> ~ In x l.
Proof.
  rewrite <- mem_In. destruct (mem x l); split; congruence.
Qed.

Lemma dropWhile_idem p s : dropWhile p (dropWhile p s) = dropWhile p s.
Proof.
  induction s as [|c r IH]; simpl; trivial.
  destruct (p c) eqn:E; trivial. simpl. now rewrite E.
Qed.

Lemma dropEndWhile_nil p s :
  dropEndWhile p s = [] <-> forallb p s = true.
Proof.
  induction s as [|c r IH]; simpl.
  - tauto.
  - destruct (dropEndWhile p r) eqn:E.
    + destruct (p c); simpl; split; intro H; try discriminate; trivial.
      now apply IH.
    + split; intro H; try discriminate.
      apply andb_true_iff in H. destruct H as [_ H]. apply IH in H.
      discriminate.
Qed.

Lemma dropEndWhile_cons p c r :
  dropEndWhile p (c :: r) =
  if p c && forallb p r then [] else c :: dropEndWhile p r.
Proof.
  simpl. destruct (dropEndWhile p r) eqn:E.
  - assert (forallb p r = true) as -> by now apply dropEndWhile_nil.
    now destruct (p c).
  - destruct (forallb p r) eqn:F.
    + apply dropEndWhile_nil in F. congruence.
    + now rewrite andb_false_r.
Qed.

Lemma dropEndWhile_idem p s :
  dropEndWhile p (dropEndWhile p s) = dropEndWhile p s.
Proof.
  induction s as [|c r IH]; trivial.
  rewrite dropEndWhile_cons.
  destruct (p c && forallb p r) eqn:E; trivial.
  rewrite dropEndWhile_cons, IH.
  destruct (p c && forallb p (dropEndWhile p r)) eqn:F; trivial.
  apply andb_true_iff in F. destruct F as [Hc F].
  apply dropEndWhile_nil in F. rewrite IH in F.
  apply dropEndWhile_nil in F. rewrite Hc, F in E. discriminate.
Qed.

Lemma dropWhile_length p s : length (dropWhile p s) <= length s.
Proof.
  induction s as [|c r IH]; simpl; trivial.
  destruct (p c); simpl; lia.
Qed.

Lemma dropWhile_fixed p c r : dropWhile p (c :: r) = c :: r -> p c = false.
Proof.
  simpl. destruct (p c); trivial. intros H.
  pose proof (dropWhile_length p r) as L. rewrite H in L. simpl in L. lia.
Qed.

(** What [dropEndWhile] keeps starts as the string does. *)
Lemma dropWhile_dropEndWhile p s :
  dropWhile p s = s -> dropWhile p (dropEndWhile p s) = dropEndWhile p s.
Proof.
  destruct s as [|c r]; trivial.
  intros H. apply dropWhile_fixed in H. rewrite dropEndWhile_cons.
  destruct (p c && forallb p r); trivial.
  simpl. now rewrite H.
Qed.

Lemma trim_idem s : trim (trim s) = trim s.
Proof.
  unfold trim, trimStart, trimEnd.
  rewrite dropWhile_dropEndWhile by apply dropWhile_idem.
  apply dropEndWhile_idem.
Qed.

Lemma Forall_dropWhile (P : char -> Prop) p s :
  Forall P s -> Forall P (dropWhile p s).
Proof.
  induction 1 as [|c r Hc Hr IH]; simpl; auto.
  destruct (p c); auto.
Qed.

Lemma Forall_dropEndWhile (P : char -> Prop) p s :
  Forall P s -> Forall P (dropEndWhile p s).
Proof.
  induction 1 as [|c r Hc Hr IH]; auto.
  rewrite dropEndWhile_cons. destruct (p c && forallb p r); auto.
Qed.

End StrFacts.

(** ** Normalisation *)

Module Normal.
Import StrFacts.

Lemma blankOk_weaken b s : blankOk b s -> blankOk false s.
Proof.
  destruct s as [|c r]; simpl; trivial.
  destruct (isBlank c); tauto.
Qed.

Lemma blankOk_tail b c r : blankOk b (c :: r) -> blankOk false r.
Proof.
  simpl. destruct (isBlank c).
  - intros (_ & _ & H). now apply blankOk_weaken in H.
  - trivial.
Qed.

Lemma blankOk_dropWhile p s :
  blankOk false s -> blankOk false (dropWhile p s).
Proof.
  induction s as [|c r IH]; intros H; simpl; trivial.
  destruct (p c); trivial.
  apply IH. now apply blankOk_tail in H.
Qed.

Lemma blankOk_dropEndWhile p b s :
  blankOk b s -> blankOk b (dropEndWhile p s).
Proof.
  revert b. induction s as [|c r IH]; intros b H; trivial.
  rewrite dropEndWhile_cons. destruct (p c && forallb p r); simpl; trivial.
  simpl in H. destruct (isBlank c).
  - destruct H as (H1 & H2 & H3). auto.
  - auto.
Qed.

Lemma lfOk_weaken s : forall k k', k' <= k -> lfOk k s -> lfOk k' s.
Proof.
  induction s as [|c r IH]; intros k k' L; simpl; trivial.
  destruct (c =? 10)%N; trivial.
  intros [H1 H2]. split; [lia|]. apply (IH (S k)); trivial. lia.
Qed.

Lemma lfOk_tail k c r : lfOk k (c :: r) -> lfOk 0 r.
Proof.
  simpl. destruct (c =? 10)%N; trivial.
  intros [_ H]. apply (lfOk_weaken r (S k)); trivial. lia.
Qed.

Lemma lfOk_dropWhile p s : lfOk 0 s -> lfOk 0 (dropWhile p s).
Proof.
  induction s as [|c r IH]; intros H; simpl; trivial.
  destruct (p c); trivial.
  apply IH. now apply lfOk_tail in H.
Qed.

Lemma lfOk_dropEndWhile p k s : lfOk k s -> lfOk k (dropEndWhile p s).
Proof.
  revert k. induction s as [|c r IH]; intros k H; trivial.
  rewrite dropEndWhile_cons. destruct (p c && forallb p r); simpl; trivial.
  simpl in H. destruct (c =? 10)%N.
  - destruct H as (H1 & H2). auto.
  - auto.
Qed.

Lemma normal_trim s : normal s -> normal (trim s).
Proof.
  intros (H1 & H2 & H3). unfold trim, trimStart, trimEnd. repeat split.
  - now apply Forall_dropEndWhile, Forall_dropWhile.
  - now apply blankOk_dropEndWhile, blankOk_dropWhile.
  - now apply lfOk_dropEndWhile, lfOk_dropWhile.
Qed.

(** Each step of [normalizeText] leaves a string alone that is already in
    the form the step produces. *)
Lemma removeCR_fixed s :
  Forall plain s -> filter (fun c => negb (c =? 13)%N) s = s.
Proof.
  induction 1 as [|c r [Hc _] Hr IH]; simpl; trivial.
  apply N.eqb_neq in Hc. rewrite Hc. simpl. now rewrite IH.
Qed.

Lemma tabs_fixed s :
  Forall plain s -> map (fun c => if (c =? 9)%N then 32%N else c) s = s.
Proof.
  induction 1 as [|c r [_ Hc] Hr IH]; simpl; trivial.
  apply N.eqb_neq in Hc. rewrite Hc. now rewrite IH.
Qed.

Lemma collapseBlanks_fixed s :
  forall b, blankOk b s -> collapseBlanksFrom b s = s.
Proof.
  induction s as [|c r IH]; intros b; simpl; trivial.
  destruct (isBlank c).
  - intros (-> & -> & H). now rewrite IH.
  - intros H. now rewrite IH.
Qed.

Lemma collapseNewlines_fixed s :
  forall k, lfOk k s -> collapseNewlinesFrom k s = s.
Proof.
  induction s as [|c r IH]; intros k; cbn [collapseNewlinesFrom lfOk];
    trivial.
  destruct (c =? 10)%N.
  - intros [L H]. destruct (Nat.leb_spec 2 k); [lia|]. now rewrite IH.
  - intros H. now rewrite IH.
Qed.

(** Each step establishes its form and keeps the forms of the steps before
    it. *)
Lemma removeCR_plain s :
  Forall (fun c => c <> 13%N) (filter (fun c => negb (c =? 13)%N) s).
Proof.
  apply Forall_forall. intros c H. apply filter_In in H. destruct H as [_ H].
  apply negb_true_iff in H. now apply N.eqb_neq.
Qed.

Lemma tabs_plain s :
  Forall (fun c => c <> 13%N) s ->
  Forall plain (map (fun c => if (c =? 9)%N then 32%N else c) s).
Proof.
  induction 1 as [|c r Hc Hr IH]; simpl; constructor; trivial.
  destruct (N.eqb_spec c 9); split; trivial; discriminate.
Qed.

Lemma collapseBlanks_plain s :
  forall b, Forall plain s -> Forall plain (collapseBlanksFrom b s).
Proof.
  induction s as [|c r IH]; intros b H; simpl; trivial.
  inversion H as [|? ? Hc Hr]; subst.
  destruct (isBlank c); [destruct b|]; auto.
  constructor; auto. split; discriminate.
Qed.

Lemma collapseBlanks_ok s :
  forall b, blankOk b (collapseBlanksFrom b s).
Proof.
  induction s as [|c r IH]; intros b; simpl; trivial.
  destruct (isBlank c) eqn:E.
  - destruct b; simpl; auto.
  - simpl. rewrite E. auto.
Qed.

Lemma collapseNewlines_plain s :
  forall k, Forall plain s -> Forall plain (collapseNewlinesFrom k s).
Proof.
  induction s as [|c r IH]; intros k H; cbn [collapseNewlinesFrom]; trivial.
  inversion H as [|? ? Hc Hr]; subst.
  destruct (c =? 10)%N; [destruct (2 <=? k)|]; auto.
Qed.

Lemma collapseNewlines_blankOk s :
  forall k b, (2 <= k -> b = false) -> blankOk b s ->
  blankOk b (collapseNewlinesFrom k s).
Proof.
  induction s as [|c r IH]; intros k b Hk H; [exact I|].
  cbn [collapseNewlinesFrom].
  destruct (N.eqb_spec c 10) as [->|Hc].
  - simpl in H. destruct (Nat.leb_spec 2 k) as [L|L].
    + rewrite (Hk L). apply IH; trivial.
    + simpl. apply IH; trivial.
  - cbn [blankOk] in *. destruct (isBlank c).
    + destruct H as (H1 & H2 & H3). repeat split; trivial.
      apply IH; trivial; lia.
    + apply IH; trivial; lia.
Qed.

Lemma collapseNewlines_ok s :
  forall k, k <= 2 -> lfOk k (collapseNewlinesFrom k s).
Proof.
  induction s as [|c r IH]; intros k Hk; [exact I|].
  cbn [collapseNewlinesFrom].
  destruct (N.eqb_spec c 10) as [->|Hc].
  - destruct (Nat.leb_spec 2 k).
    + now apply IH.
    + simpl. split; [lia|]. apply IH. lia.
  - cbn [lfOk]. apply N.eqb_neq in Hc. rewrite Hc. apply IH. lia.
Qed.

Lemma normalizeText_normal text : normal (normalizeText text).
Proof.
  unfold normalizeText. apply normal_trim. repeat split.
  - apply collapseNewlines_plain, collapseBlanks_plain, tabs_plain,
      removeCR_plain.
  - apply collapseNewlines_blankOk; [lia|]. apply collapseBlanks_ok.
  - apply collapseNewlines_ok. lia.
Qed.

Lemma normalizeText_fixed s : normal s -> trim s = s -> normalizeText s = s.
Proof.
  intros (H1 & H2 & H3) T. unfold normalizeText.
  rewrite removeCR_fixed, tabs_fixed, collapseBlanks_fixed,
    collapseNewlines_fixed; trivial.
Qed.

End Normal.

(** C10: text normalisation is idempotent: normalising a normalised text
    gives it back. *)
Theorem normalizeText_idempotent (s : str) :
  normalizeText (normalizeText s) = normalizeText s.
Proof.
  apply Normal.normalizeText_fixed.
  - apply Normal.normalizeText_normal.
  - unfold normalizeText. apply StrFacts.trim_idem.
Qed.

(** ** The chunker *)

Module ChunkFacts.

Lemma join_cons sep x l :
  l <> [] -> join sep (x :: l) = x ++ sep ++ join sep l.
Proof. destruct l; [congruence | reflexivity]. Qed.

Lemma join_app sep a b :
  a <> [] -> b <> [] -> join sep (a ++ b) = join sep a ++ sep ++ join sep b.
Proof.
  intros Ha Hb. induction a as [|x a IH]; [congruence|].
  destruct a as [|y a].
  - simpl app. now rewrite join_cons.
  - change ((x :: y :: a) ++ b) with (x :: ((y :: a) ++ b)).
    rewrite !join_cons by discriminate. rewrite IH by discriminate.
    now rewrite <- !app_assoc.
Qed.

Lemma ceilDiv_0 r : 0 < r -> ceilDiv 0 r = 0.
Proof. intros H. unfold ceilDiv. apply Nat.div_small. lia. Qed.

Lemma ceilDiv_step a r :
  0 < r -> 0 < a -> ceilDiv a r = S (ceilDiv (a - r) r).
Proof.
  intros Hr Ha. unfold ceilDiv. destruct (Nat.le_gt_cases a r) as [L|L].
  - replace (a - r) with 0 by lia. replace (0 + r - 1) with (r - 1) by lia.
    rewrite (Nat.div_small (r - 1) r) by lia.
    replace (a + r - 1) with (1 * r + (a - 1)) by lia.
    rewrite Nat.div_add_l by lia. rewrite Nat.div_small by lia. reflexivity.
  - replace (a + r - 1) with (1 * r + (a - r + r - 1)) by lia.
    rewrite Nat.div_add_l by lia. reflexivity.
Qed.

Lemma ceilDiv_mul a b : 0 < b -> a <= b * ceilDiv a b.
Proof.
  intros Hb. unfold ceilDiv.
  pose proof (Nat.div_mod_eq (a + b - 1) b) as E.
  pose proof (Nat.mod_upper_bound (a + b - 1) b) as U. lia.
Qed.

(** Batches of [ceil(n / m)] are at most [m]. *)
Lemma ceilDiv_ceilDiv n m :
  0 < m -> 0 < n -> ceilDiv n (ceilDiv n m) <= m.
Proof.
  intros Hm Hn. pose proof (ceilDiv_mul n m Hm) as M.
  set (r := ceilDiv n m) in *.
  assert (0 < r) by (destruct r; [lia | lia]).
  unfold ceilDiv. apply Nat.lt_succ_r, Nat.Div0.div_lt_upper_bound. nia.
Qed.

Lemma slice_0 {A} n (l : list A) : slice 0 n l = firstn n l.
Proof. unfold slice. now rewrite Nat.sub_0_r. Qed.

Lemma slice_from {A} i r (l : list A) :
  slice i (i + r) l = firstn r (skipn i l).
Proof. unfold slice. f_equal. lia. Qed.

(** The second loop ends within its fuel, and what it builds is the
    batches of [ratio] chunks from [i] on. *)
Lemma reduceLoop_spec chunks ratio :
  0 < ratio ->
  forall fuel i reduced,
    length chunks - i < fuel ->
    exists out,
      reduceLoop fuel chunks ratio i reduced = Some (reduced ++ out)
      /\ length out = ceilDiv (length chunks - i) ratio
      /\ join nn out = join nn (skipn i chunks).
Proof.
  intros Hr. induction fuel as [|fuel IH]; intros i reduced Hf; [lia|].
  simpl. destruct (Nat.ltb_spec i (length chunks)) as [L|L].
  - destruct (IH (i + ratio)
                (reduced ++ [join nn (slice i (i + ratio) chunks)]))
      as (out & E & Hlen & Hjoin); [lia|].
    exists (join nn (slice i (i + ratio) chunks) :: out).
    rewrite E, <- app_assoc. split; [reflexivity|]. split.
    + simpl. rewrite Hlen. rewrite (ceilDiv_step (length chunks - i) ratio)
        by lia. f_equal. f_equal. lia.
    + rewrite slice_from.
      rewrite <- (firstn_skipn ratio (skipn i chunks)) at 2.
      rewrite skipn_skipn in *. rewrite (Nat.add_comm ratio i).
      assert (Hne : firstn ratio (skipn i chunks) <> []).
      { intros N. apply (f_equal (@length _)) in N.
        rewrite length_firstn, length_skipn in N. simpl in N. lia. }
      destruct out as [|o out].
      * simpl in Hlen. 
        assert (Hs : skipn (i + ratio) chunks = []).
        { apply length_zero_iff_nil. rewrite length_skipn.
          destruct (Nat.eq_dec (length chunks - (i + ratio)) 0) as [Z|Z];
            trivial.
          rewrite (ceilDiv_step (length chunks - (i + ratio)) ratio) in Hlen
            by lia. discriminate. }
        rewrite Hs, app_nil_r. reflexivity.
      * rewrite join_cons by discriminate. rewrite Hjoin.
        rewrite join_app; trivial.
        intros N. rewrite N in Hjoin.
        assert (length (o :: out) = 0) as Z.
        { rewrite Hlen. apply (f_equal (@length _)) in N.
          rewrite length_skipn in N. rewrite N. now apply ceilDiv_0. }
        discriminate.
  - exists []. rewrite app_nil_r. split; [reflexivity|].
    replace (length chunks - i) with 0 by lia. split.
    + now rewrite ceilDiv_0.
    + rewrite skipn_all2 by lia. reflexivity.
Qed.

(** *** A ceiling below zero *)



Lemma chunkBlocksZ_nonneg fuel blocks m :
  (0 <= m)%Z ->
  chunkBlocksZ fuel blocks m = Some (chunkBlocks blocks (Z.to_nat m)).
Proof.
  intros Hm. unfold chunkBlocksZ.
  now destruct (Z.leb_spec 0 m); [|lia].
Qed.



End ChunkFacts.

(** C6: for a positive [maxChunks] the chunker emits at most [maxChunks]
    chunks; and when there are more raw chunks than that, the loop that
    batches them by [ratio = ceil(rawCount / maxChunks)] ends and yields at
    most [maxChunks] groups, so the final [slice] returns all of them, and
    joined with blank lines they are the raw chunks joined with blank
    lines: no raw chunk is dropped. *)
Theorem chunk_ceiling (blocks : list str) (maxChunks : nat) :
  0 < maxChunks ->
  length (chunkBlocks blocks maxChunks) <= maxChunks
  /\ (maxChunks < length (rawChunks blocks) ->
      exists reduced,
        reduceLoop (S (length (rawChunks blocks))) (rawChunks blocks)
          (ceilDiv (length (rawChunks blocks)) maxChunks) 0 []
        = Some reduced
        /\ length reduced <= maxChunks
        /\ chunkBlocks blocks maxChunks = reduced
        /\ join nn reduced = join nn (rawChunks blocks)).
Proof.
  intros Hm. unfold chunkBlocks.
  set (chunks := rawChunks blocks).
  destruct (Nat.leb_spec (length chunks) maxChunks) as [L|L].
  - split; [exact L | lia].
  - destruct maxChunks as [|m]; [lia|].
    assert (Hr : 0 < ceilDiv (length chunks) (S m)).
    { pose proof (ChunkFacts.ceilDiv_mul (length chunks) (S m)).
      destruct (ceilDiv (length chunks) (S m)); lia. }
    destruct (ChunkFacts.reduceLoop_spec chunks _ Hr (S (length chunks)) 0 [])
      as (out & E & Hlen & Hjoin); [lia|].
    simpl app in E. rewrite E. rewrite Nat.sub_0_r in Hlen.
    assert (B : length out <= S m).
    { rewrite Hlen. apply ChunkFacts.ceilDiv_ceilDiv; lia. }
    rewrite ChunkFacts.slice_0, firstn_all2 by exact B.
    split; [exact B|]. intros _. exists out. auto.
Qed.

(** ** Blocks, words and the two length filters *)

Module BlockFacts.
Import StrFacts.

Lemma stripWs_app a b : stripWs (a ++ b) = stripWs a ++ stripWs b.
Proof. apply filter_app. Qed.

Lemma stripWs_dropWhile s : stripWs (dropWhile isWs s) = stripWs s.
Proof.
  induction s as [|c r IH]; simpl; trivial.
  destruct (isWs c) eqn:E; simpl; trivial. now rewrite E.
Qed.

Lemma stripWs_all s : forallb isWs s = true -> stripWs s = [].
Proof.
  induction s as [|c r IH]; simpl; trivial.
  intros H. apply andb_true_iff in H. destruct H as [Hc Hr].
  rewrite Hc. simpl. auto.
Qed.

Lemma stripWs_dropEndWhile s : stripWs (dropEndWhile isWs s) = stripWs s.
Proof.
  induction s as [|c r IH]; trivial.
  rewrite dropEndWhile_cons.
  destruct (isWs c && forallb isWs r) eqn:E.
  - apply andb_true_iff in E. destruct E as [Hc Hr].
    simpl. rewrite Hc. simpl. now rewrite stripWs_all.
  - simpl. now rewrite IH.
Qed.

Lemma stripWs_trim s : stripWs (trim s) = stripWs s.
Proof.
  unfold trim, trimStart, trimEnd.
  now rewrite stripWs_dropEndWhile, stripWs_dropWhile.
Qed.

Lemma nonEmpty_rev s : nonEmpty (rev s) = nonEmpty s.
Proof.
  destruct s as [|c r]; trivial. simpl.
  destruct (rev r); reflexivity.
Qed.

Lemma splitWs_words s :
  forall insep cur, (insep = true -> cur = []) ->
  length (filter nonEmpty (splitWsFrom insep cur s))
  = wordsFrom (nonEmpty cur) s.
Proof.
  induction s as [|c r IH]; intros insep cur Hi; simpl.
  - rewrite nonEmpty_rev. now destruct (nonEmpty cur).
  - destruct (isWs c).
    + destruct insep.
      * rewrite (Hi eq_refl). simpl. now apply IH.
      * simpl. rewrite nonEmpty_rev.
        destruct (nonEmpty cur); simpl; now rewrite IH.
    + rewrite IH by discriminate. reflexivity.
Qed.

Lemma wordCount_words s : wordCount s = wordsFrom false s.
Proof. unfold wordCount, splitWs. now rewrite splitWs_words. Qed.

Lemma wordsFrom_all s : forallb isWs s = true -> wordsFrom false s = 0.
Proof.
  induction s as [|c r IH]; simpl; trivial.
  intros H. apply andb_true_iff in H. destruct H as [Hc Hr].
  rewrite Hc. auto.
Qed.

Lemma wordsFrom_dropWhile s :
  wordsFrom false (dropWhile isWs s) = wordsFrom false s.
Proof.
  induction s as [|c r IH]; simpl; trivial.
  destruct (isWs c) eqn:E; trivial. simpl. now rewrite E.
Qed.

Lemma wordsFrom_dropEndWhile s :
  forall b, wordsFrom b (dropEndWhile isWs s) = wordsFrom b s.
Proof.
  induction s as [|c r IH]; intros b; trivial.
  rewrite dropEndWhile_cons.
  destruct (isWs c && forallb isWs r) eqn:E.
  - apply andb_true_iff in E. destruct E as [Hc Hr].
    simpl. rewrite Hc, wordsFrom_all by trivial. lia.
  - simpl. now rewrite !IH.
Qed.

Lemma wordCount_trim s : wordCount (trim s) = wordCount s.
Proof.
  rewrite !wordCount_words. unfold trim, trimStart, trimEnd.
  now rewrite wordsFrom_dropEndWhile, wordsFrom_dropWhile.
Qed.

(** A paragraph is one piece of [split(/\n\n+/)]. *)
Lemma splitBlank_paragraph p :
  forall cur, blankLineFree p = true ->
  splitBlankFrom false cur p = [rev cur ++ p].
Proof.
  induction p as [|c r IH]; intros cur H; simpl.
  - now rewrite app_nil_r.
  - simpl in H. apply andb_true_iff in H. destruct H as [H1 H2].
    assert (E : splitBlankFrom false (c :: cur) r = [rev cur ++ c :: r]).
    { rewrite IH by trivial. simpl. now rewrite <- app_assoc. }
    destruct (c =? 10)%N; trivial.
    destruct r as [|c' r']; trivial.
    simpl in H1. destruct (c' =? 10)%N; [discriminate | trivial].
Qed.

(** Two paragraphs with a blank line between them, in a text that has no
    three line feeds in a row, are the two pieces. *)
Lemma splitBlank_two p1 p2 :
  forall k cur,
    lfOk k (p1 ++ nn ++ p2) ->
    blankLineFree p1 = true -> blankLineFree p2 = true ->
    splitBlankFrom false cur (p1 ++ nn ++ p2) = [rev cur ++ p1; p2].
Proof.
  induction p1 as [|c r IH]; intros k cur L B1 B2.
  - simpl in *. destruct L as (_ & _ & L). rewrite app_nil_r.
    destruct p2 as [|c2 r2]; trivial.
    simpl in L. simpl. destruct (c2 =? 10)%N eqn:E; [lia|].
    f_equal. fold (splitBlankFrom false [c2] r2).
    rewrite splitBlank_paragraph.
    + reflexivity.
    + simpl in B2. apply andb_true_iff in B2. tauto.
  - simpl in B1. apply andb_true_iff in B1. destruct B1 as [B1 B1'].
    assert (E : forall k', lfOk k' (r ++ nn ++ p2) ->
                splitBlankFrom false (c :: cur) (r ++ nn ++ p2)
                = [rev cur ++ c :: r; p2]).
    { intros k' L'. rewrite (IH k') by trivial. simpl.
      now rewrite <- app_assoc. }
    simpl app in *. cbn [lfOk] in L. cbn [splitBlankFrom].
    destruct (c =? 10)%N.
    + destruct L as [Lk L]. destruct r as [|c' r'].
      * simpl in L. lia.
      * simpl in B1. destruct (c' =? 10)%N eqn:E'; [discriminate|].
        cbn [app]. rewrite E'. apply (E (S k)). exact L.
    + destruct (r ++ nn ++ p2); apply (E 0); exact L.
Qed.

End BlockFacts.

(** *** Every block is in a chunk *)

Module CoverFacts.
Import BlockFacts ChunkFacts.








End CoverFacts.

(** ** Lines of the rendered files *)

Module LineFacts.
Import StrFacts.

Lemma noLF_b s :
  forallb (fun c => negb (c =? 10)%N) s = true -> noLF s.
Proof.
  intros H. apply Forall_forall. intros c Hc.
  rewrite forallb_forall in H. specialize (H c Hc).
  apply negb_true_iff in H. now apply N.eqb_neq.
Qed.

Lemma noLF_app a b : noLF a -> noLF b -> noLF (a ++ b).
Proof. intros. now apply Forall_app. Qed.

Lemma noLF_digits d : noLF (digits d).
Proof. induction d; simpl; constructor; trivial; discriminate. Qed.

Lemma noLF_ofZ z : noLF (Str.ofZ z).
Proof.
  destruct z; simpl; try apply noLF_digits.
  constructor; [discriminate | apply noLF_digits].
Qed.

Lemma noLF_padStart0 n s : noLF s -> noLF (padStart0 n s).
Proof.
  intros H. apply noLF_app; trivial.
  apply Forall_forall. intros c Hc. apply repeat_spec in Hc. now subst.
Qed.

Lemma noLF_skillId idx : noLF (skillId idx).
Proof.
  apply noLF_app; [apply noLF_b; vm_compute; reflexivity|].
  apply noLF_padStart0, noLF_digits.
Qed.

Lemma noLF_firstn n s : noLF s -> noLF (firstn n s).
Proof.
  apply ListFacts.Forall_firstn.
Qed.

Lemma noLF_toTitle line idx : noLF line -> noLF (toTitle line idx).
Proof.
  intros H. unfold toTitle.
  match goal with |- context [trim ?x] => set (clean := trim x) end.
  assert (Hc : noLF clean).
  { unfold clean, trim, trimStart, trimEnd.
    repeat (apply Forall_dropEndWhile || apply Forall_dropWhile). exact H. }
  destruct (nonEmpty clean); [|apply noLF_skillId].
  destruct (42 <? length clean); trivial.
  rewrite ChunkFacts.slice_0. now apply noLF_firstn.
Qed.

Lemma splitLines_pieces s :
  forall cur, noLF cur -> Forall noLF (splitLinesFrom cur s).
Proof.
  induction s as [|c r IH]; intros cur H; simpl.
  - constructor; [|constructor]. now apply Forall_rev.
  - destruct (N.eqb_spec c 10).
    + constructor; [now apply Forall_rev|]. apply IH. constructor.
    + apply IH. now constructor.
Qed.

Lemma noLF_firstLine chunk : noLF (hd [] (splitLines chunk)).
Proof.
  pose proof (splitLines_pieces chunk [] (Forall_nil _)) as H.
  unfold splitLines. destruct (splitLinesFrom [] chunk); simpl.
  - constructor.
  - now inversion H.
Qed.

Lemma splitLines_line x :
  forall cur, noLF x -> splitLinesFrom cur x = [rev cur ++ x].
Proof.
  induction x as [|c r IH]; intros cur H; simpl.
  - now rewrite app_nil_r.
  - inversion H as [|? ? Hc Hr]; subst. apply N.eqb_neq in Hc. rewrite Hc.
    rewrite IH by trivial. simpl. now rewrite <- app_assoc.
Qed.

Lemma splitLines_cons x rest :
  forall cur, noLF x ->
  splitLinesFrom cur (x ++ nl ++ rest)
  = (rev cur ++ x) :: splitLinesFrom [] rest.
Proof.
  induction x as [|c r IH]; intros cur H; simpl.
  - now rewrite app_nil_r.
  - inversion H as [|? ? Hc Hr]; subst. apply N.eqb_neq in Hc. rewrite Hc.
    rewrite IH by trivial. simpl. now rewrite <- app_assoc.
Qed.

(** Lines without a line feed, joined and split again, are the lines. *)
Lemma splitLines_join l :
  l <> [] -> Forall noLF l -> splitLines (join nl l) = l.
Proof.
  intros Hne H. unfold splitLines.
  induction H as [|x l Hx Hl IH]; [congruence|].
  destruct l as [|y l].
  - simpl. now rewrite splitLines_line.
  - rewrite ChunkFacts.join_cons by discriminate.
    rewrite splitLines_cons by trivial. simpl app. f_equal.
    apply IH. discriminate.
Qed.

Lemma noLF_indexLines items minScore :
  Forall (fun it => noLF (id it) /\ noLF (title it) /\ noLF (trigger it))
    items ->
  Forall noLF (indexLines items minScore).
Proof.
  intros H. unfold indexLines. apply Forall_app. split.
  - repeat match goal with
           | |- Forall noLF (_ :: _) => apply Forall_cons
           | |- Forall noLF [] => apply Forall_nil
           end;
      try (apply noLF_b; vm_compute; reflexivity).
    apply noLF_app; [apply noLF_b; vm_compute; reflexivity|].
    destruct minScore;
      [apply noLF_ofZ | apply noLF_b; vm_compute; reflexivity].
  - apply Forall_map. eapply Forall_impl; [|exact H].
    intros it (H1 & H2 & H3). cbv beta.
    repeat match goal with |- noLF (_ ++ _) => apply noLF_app end;
      trivial; try apply noLF_ofZ; apply noLF_b; vm_compute; reflexivity.
Qed.

(** The table of [buildIndexMd] has one row for each item. *)
Lemma tableRows_length items minScore :
  Forall (fun it => noLF (id it) /\ noLF (title it) /\ noLF (trigger it))
    items ->
  length (tableRows (buildIndexMd items minScore)) = length items.
Proof.
  intros H. unfold tableRows, buildIndexMd, lines.
  rewrite splitLines_join.
  - unfold indexLines. cbn [app skipn]. apply length_map.
  - unfold indexLines. discriminate.
  - now apply noLF_indexLines.
Qed.

End LineFacts.

(** ** [run] on its text *)

Module RunFacts.
Import StrFacts BlockFacts LineFacts.

Section WithLower.
Variable toLowerCase : str -> str.

Lemma skillItems_length mode chunks :
  length (skillItems toLowerCase mode chunks) = length chunks.
Proof.
  unfold skillItems, indexed.
  rewrite length_map, length_combine, length_seq. lia.
Qed.

Lemma skillItems_lines mode chunks :
  Forall (fun it => noLF (id it) /\ noLF (title it) /\ noLF (trigger it))
    (skillItems toLowerCase mode chunks).
Proof.
  unfold skillItems. apply Forall_map. apply Forall_forall.
  intros [idx chunk] _. cbn [skillItem id title trigger].
  pose proof (noLF_toTitle _ idx (noLF_firstLine chunk)) as T.
  split; [apply noLF_skillId|]. split; trivial.
  destruct (24 <? length (toTitle (hd [] (splitLines chunk)) idx)); trivial.
  apply noLF_app; [|apply noLF_b; vm_compute; reflexivity].
  rewrite ChunkFacts.slice_0. now apply noLF_firstn.
Qed.

Lemma compile_cases a text :
  compile toLowerCase a text =
  match normalizeText text with
  | [] => Failed EmptyExtraction
  | _ :: _ =>
      match clippedChunks a (normalizeText text) with
      | None => NeverReturns
      | Some [] => Failed NoSemanticContent
      | Some ((_ :: _) as chunks) =>
          let items := skillItems toLowerCase (mode a) chunks in
          let deps := buildDependencies items in
          Compiled
            (Pack items deps (manifest a (normalizeText text) items deps))
      end
  end.
Proof.
  unfold compile. destruct (normalizeText text); trivial.
  cbn [nonEmpty]. destruct (clippedChunks a (c :: s)) as [[|x l]|];
    reflexivity.
Qed.

(** What a successful run returns. *)
Lemma compile_compiled a text p :
  compile toLowerCase a text = Compiled p ->
  exists chunks,
    clippedChunks a (normalizeText text) = Some chunks
    /\ chunks <> []
    /\ let items := skillItems toLowerCase (mode a) chunks in
       p = Pack items (buildDependencies items)
             (manifest a (normalizeText text) items (buildDependencies items)).
Proof.
  rewrite compile_cases. destruct (normalizeText text); [discriminate|].
  destruct (clippedChunks a (c :: s)) as [[|x l]|] eqn:E; try discriminate.
  intros H. injection H as <-. exists (x :: l).
  split; [reflexivity|]. split; [discriminate | reflexivity].
Qed.

(** The chunks of a run whose ceiling is not negative. *)
Lemma clippedChunks_nonneg a normalized :
  (0 <= ceiling a)%Z ->
  clippedChunks a normalized
  = Some (filter (fun x => 80 <? length (stripWs x))
            (chunkBlocks (splitSemanticBlocks normalized)
               (Z.to_nat (ceiling a)))).
Proof.
  intros H. unfold clippedChunks.
  now rewrite ChunkFacts.chunkBlocksZ_nonneg.
Qed.

Lemma fileOf_index a normalized items deps :
  fileOf (lit "skills/index.md") (manifest a normalized items deps)
  = Some (Text (buildIndexMd items (cutoff a))).
Proof. reflexivity. Qed.

Lemma fileOf_routes a normalized items deps :
  fileOf (lit "skills/routes.json") (manifest a normalized items deps)
  = Some (Json (buildRoutesJson items deps (cutoff a))).
Proof. reflexivity. Qed.

Lemma compile_empty a text :
  compile toLowerCase a text = Failed EmptyExtraction
  <-> normalizeText text = [].
Proof.
  rewrite compile_cases. destruct (normalizeText text) as [|c s].
  - tauto.
  - destruct (clippedChunks a (c :: s)) as [[|x l]|];
      split; discriminate.
Qed.




End WithLower.





Lemma nonEmpty_stripWs s : 0 < length (stripWs s) -> nonEmpty s = true.
Proof. destruct s; simpl; [lia | trivial]. Qed.


Lemma blocks_two text p1 p2 :
  text = p1 ++ nn ++ p2 -> lfOk 0 text ->
  blankLineFree p1 = true -> blankLineFree p2 = true ->
  40 <= length (stripWs p1) -> 40 <= length (stripWs p2) ->
  splitSemanticBlocks text = [trim p1; trim p2].
Proof.
  intros -> L B1 B2 N1 N2. unfold splitSemanticBlocks, splitBlank.
  rewrite (splitBlank_two p1 p2 0 []) by trivial.
  cbn [rev app map filter].
  rewrite !nonEmpty_stripWs by (rewrite stripWs_trim; lia).
  cbn [filter]. rewrite !stripWs_trim.
  destruct (Nat.leb_spec 40 (length (stripWs p1))); [|lia].
  destruct (Nat.leb_spec 40 (length (stripWs p2))); [|lia].
  reflexivity.
Qed.

Lemma rawChunks_two b1 b2 :
  rawChunks [b1; b2] =
  if (targetMaxWords <? wordCount b1 + wordCount b2)
     || (targetMinWords <=? wordCount b1)
  then [b1; b2] else [b1 ++ nn ++ b2].
Proof.
  unfold rawChunks. cbn [chunkLoop length app]. 
  change (0 <? 0) with false. change (0 <? 1) with true.
  cbn [andb Nat.add].
  destruct ((targetMaxWords <? wordCount b1 + wordCount b2)
            || (targetMinWords <=? wordCount b1)); reflexivity.
Qed.

Lemma chunkBlocks_few blocks n :
  length (rawChunks blocks) <= n -> chunkBlocks blocks n = rawChunks blocks.
Proof.
  intros H. unfold chunkBlocks.
  now destruct (Nat.leb_spec (length (rawChunks blocks)) n); [|lia].
Qed.

End RunFacts.




(** C1 (as amended): a text whose normalised form is two paragraphs of at
    least 50 non-space characters each with one blank line between them,
    compiled with a ceiling of 24 chunks, gives exactly one chunk when the
    paragraphs have at most 280 words together and the first has fewer
    than 140; and exactly two chunks when they have more than 280 words
    together or the first has 140 or more, provided each paragraph has
    more than 80 non-space characters.  The table of [skills/index.md] has
    that many rows. *)
Theorem two_paragraphs (toLowerCase : str -> str) (a : args)
    (text p1 p2 : str) :
  maxChunks a = Some 24%Z ->
  normalizeText text = p1 ++ nn ++ p2 ->
  blankLineFree p1 = true -> blankLineFree p2 = true ->
  50 <= length (stripWs p1) -> 50 <= length (stripWs p2) ->
  let o := compile toLowerCase a text in
  (wordCount p1 + wordCount p2 <= 280 -> wordCount p1 < 140 ->
   itemCount o = Some 1 /\ indexRowCount o = Some 1)
  /\ (280 < wordCount p1 + wordCount p2 \/ 140 <= wordCount p1 ->
      80 < length (stripWs p1) -> 80 < length (stripWs p2) ->
      itemCount o = Some 2 /\ indexRowCount o = Some 2).
Proof.
  intros Hmax Hn B1 B2 N1 N2 o.
  assert (L : lfOk 0 (normalizeText text))
    by apply Normal.normalizeText_normal.
  assert (Hb : splitSemanticBlocks (normalizeText text) = [trim p1; trim p2])
    by (apply RunFacts.blocks_two; trivial; lia).
  assert (Hraw : chunkBlocks [trim p1; trim p2] 24
                 = rawChunks [trim p1; trim p2]).
  { apply RunFacts.chunkBlocks_few. rewrite RunFacts.rawChunks_two.
    destruct (_ || _); simpl; lia. }
  remember (filter (fun x => 80 <? length (stripWs x))
              (rawChunks [trim p1; trim p2])) as cl eqn:Hcl.
  assert (Hclip : clippedChunks a (normalizeText text) = Some cl).
  { assert (Hc : ceiling a = 24%Z) by (unfold ceiling; now rewrite Hmax).
    rewrite RunFacts.clippedChunks_nonneg by lia.
    rewrite Hc, Hb. change (Z.to_nat 24) with 24. now rewrite Hraw, Hcl. }
  assert (Hcount : forall n,
            length cl = n -> 0 < n ->
            itemCount o = Some n /\ indexRowCount o = Some n).
  { intros n Hlen Hpos. unfold o. rewrite RunFacts.compile_cases.
    destruct (normalizeText text) as [|c s] eqn:E.
    - destruct p1; discriminate.
    - rewrite Hclip. destruct cl as [|x l] eqn:C;
        [simpl in Hlen; lia|].
      cbn [itemCount indexRowCount packItems files].
      rewrite RunFacts.fileOf_index, LineFacts.tableRows_length
        by apply RunFacts.skillItems_lines.
      now rewrite RunFacts.skillItems_length, Hlen. }
  rewrite RunFacts.rawChunks_two, !BlockFacts.wordCount_trim in Hcl.
  unfold targetMaxWords, targetMinWords in Hcl.
  split.
  - intros W1 W2. apply Hcount; [|lia]. rewrite Hcl.
    destruct (Nat.ltb_spec 280 (wordCount p1 + wordCount p2)); [lia|].
    destruct (Nat.leb_spec 140 (wordCount p1)); [lia|].
    cbn [orb filter].
    rewrite !BlockFacts.stripWs_app, !BlockFacts.stripWs_trim.
    change (stripWs nn) with (@nil char). rewrite !length_app.
    cbn [length]. 
    destruct (Nat.ltb_spec 80
                (length (stripWs p1) + (0 + length (stripWs p2))));
      [reflexivity | lia].
  - intros W M1 M2. apply Hcount; [|lia]. rewrite Hcl.
    assert ((280 <? wordCount p1 + wordCount p2)
            || (140 <=? wordCount p1) = true) as ->.
    { apply orb_true_iff. destruct W as [W|W];
        [left; now apply Nat.ltb_lt | right; now apply Nat.leb_le]. }
    cbn [filter]. rewrite !BlockFacts.stripWs_trim.
    destruct (Nat.ltb_spec 80 (length (stripWs p1))); [|lia].
    destruct (Nat.ltb_spec 80 (length (stripWs p2))); [|lia].
    reflexivity.
Qed.

(** The two cases of [two_paragraphs] on sample texts. *)
Lemma two_paragraphs_witness :
  (itemCount (compile asciiLower sampleArgs twoShort) = Some 1
   /\ indexRowCount (compile asciiLower sampleArgs twoShort) = Some 1)
  /\ (itemCount (compile asciiLower sampleArgs longShort) = Some 2
      /\ indexRowCount (compile asciiLower sampleArgs longShort) = Some 2).
Proof.
  split.
  - apply (two_paragraphs asciiLower sampleArgs twoShort
             (wordsOf (lit "alpha") 60) (wordsOf (lit "betagamma") 60));
      vm_compute; (reflexivity || lia).
  - apply (two_paragraphs asciiLower sampleArgs longShort
             (wordsOf (lit "alpha") 140) (wordsOf (lit "betagamma") 10));
      vm_compute; (reflexivity || lia).
Defined.

(** C1 as stated fails on two paragraphs of 140 and of 10 words: they have
    150 words together, and the run gives two chunks, the first paragraph
    having reached 140 words on its own. *)
Lemma two_paragraphs_counterexample :
  normalizeText longShort
  = wordsOf (lit "alpha") 140 ++ nn ++ wordsOf (lit "betagamma") 10
  /\ blankLineFree (wordsOf (lit "alpha") 140) = true
  /\ blankLineFree (wordsOf (lit "betagamma") 10) = true
  /\ 50 <= length (stripWs (wordsOf (lit "alpha") 140))
  /\ 50 <= length (stripWs (wordsOf (lit "betagamma") 10))
  /\ wordCount (wordsOf (lit "alpha") 140)
     + wordCount (wordsOf (lit "betagamma") 10) <= 280
  /\ itemCount (compile asciiLower sampleArgs longShort) = Some 2
  /\ indexRowCount (compile asciiLower sampleArgs longShort) = Some 2.
Proof.
  repeat split; try (vm_compute; reflexivity); vm_compute; lia.
Qed.

(** ** Steps *)

Module StepFacts.

Lemma stepOfLine_app out line :
  stepOfLine out line = out ++ stepOfLine [] line.
Proof.
  unfold stepOfLine. destruct (firstMatch STEP_PATTERNS line).
  - destruct (nonEmpty _ && _); [reflexivity | now rewrite app_nil_r].
  - now rewrite app_nil_r.
Qed.

(** The loop of [extractSteps] collects what each line gives, in order. *)
Lemma steps_fold l :
  forall out,
    fold_left stepOfLine l out = out ++ flat_map (stepOfLine []) l.
Proof.
  induction l as [|line l IH]; intros out; simpl.
  - now rewrite app_nil_r.
  - rewrite IH, stepOfLine_app, <- app_assoc. reflexivity.
Qed.

Lemma stepOfLine_long line :
  Forall (fun s => 5 <= length s) (stepOfLine [] line).
Proof.
  unfold stepOfLine. destruct (firstMatch STEP_PATTERNS line); [|constructor].
  match goal with |- context [trim ?x] => set (val := trim x) end.
  destruct (nonEmpty val); [|constructor]. cbn [andb].
  destruct (Nat.ltb_spec 4 (length val));
    [constructor; [lia | constructor] | constructor].
Qed.

Lemma In_firstn_app {A} n (a b : list A) x :
  length a < n -> In x (firstn n (a ++ x :: b)).
Proof.
  intros H. rewrite firstn_app.
  apply in_or_app. right.
  destruct (n - length a) eqn:E; [lia|]. now left.
Qed.

End StepFacts.

(** C9 (as amended): the step extractor returns at most eight entries,
    namely the first eight of the remainders that the lines give in
    document order, a remainder of fewer than five characters being
    dropped; in particular the steps of a chunk contain "Open the valve"
    when the chunk has the line "1. Open the valve" and the lines before it
    give fewer than eight steps. *)
Theorem step_extraction (text : str) :
  length (extractSteps text) <= 8
  /\ extractSteps text
     = firstn 8 (flat_map (stepOfLine []) (splitLines text))
  /\ Forall (fun s => 5 <= length s) (extractSteps text)
  /\ (forall before after,
        splitLines text = before ++ lit "1. Open the valve" :: after ->
        length (flat_map (stepOfLine []) before) < 8 ->
        In (lit "Open the valve") (extractSteps text)).
Proof.
  assert (E : extractSteps text
              = firstn 8 (flat_map (stepOfLine []) (splitLines text))).
  { unfold extractSteps. rewrite ChunkFacts.slice_0, StepFacts.steps_fold.
    reflexivity. }
  rewrite E. split; [apply firstn_le_length|].
  split; [reflexivity|]. split.
  - apply ListFacts.Forall_firstn. apply Forall_flat_map.
    apply Forall_forall. intros line _. apply StepFacts.stepOfLine_long.
  - intros before after Hs Hlen. rewrite Hs, flat_map_app.
    cbn [flat_map].
    change (stepOfLine [] (lit "1. Open the valve"))
      with ([lit "Open the valve"]).
    now apply StepFacts.In_firstn_app.
Qed.

(** C9 as stated fails on a chunk of nine lines: eight bullet lines that
    each give a step, then the line "1. Open the valve", whose remainder is
    cut off by the bound of eight. *)
Lemma step_extraction_counterexample :
  In (lit "1. Open the valve") (splitLines nineSteps)
  /\ ~ In (lit "Open the valve") (extractSteps nineSteps).
Proof.
  split.
  - apply StrFacts.mem_In. vm_compute. reflexivity.
  - apply StrFacts.mem_not_In. vm_compute. reflexivity.
Qed.

(** ** Further properties of normalisation and block splitting *)

Module TextFacts.
Import StrFacts BlockFacts.

Lemma blankOk_no_pair l1 l2 :
  forall b, ~ blankOk b (l1 ++ 32%N :: 32%N :: l2).
Proof.
  induction l1 as [|c r IH]; intros b H.
  - simpl in H. destruct H as (_ & _ & H & _). discriminate.
  - apply Normal.blankOk_tail in H. exact (IH false H).
Qed.

Lemma lfOk_no_triple l1 l2 :
  forall k, ~ lfOk k (l1 ++ 10%N :: 10%N :: 10%N :: l2).
Proof.
  induction l1 as [|c r IH]; intros k H.
  - simpl in H. destruct H as (_ & _ & H & _). lia.
  - apply Normal.lfOk_tail in H. exact (IH 0 H).
Qed.

Lemma blankOk_no_nbsp s : forall b, blankOk b s -> ~ In 160%N s.
Proof.
  induction s as [|c r IH]; intros b H E; [exact E|].
  destruct E as [E|E].
  - subst c. simpl in H. destruct H as (_ & H & _). discriminate.
  - simpl in H. destruct (isBlank c).
    + destruct H as (_ & _ & H). exact (IH true H E).
    + exact (IH false H E).
Qed.

Lemma isWs_blank c : isBlank c = true -> isWs c = true.
Proof.
  unfold isBlank. intros H. apply orb_true_iff in H.
  destruct H as [H|H]; apply N.eqb_eq in H; subst; reflexivity.
Qed.

Lemma stripWs_removeCR s :
  stripWs (filter (fun c => negb (c =? 13)%N) s) = stripWs s.
Proof.
  induction s as [|c r IH]; simpl; trivial.
  destruct (N.eqb_spec c 13) as [->|Hc]; simpl; trivial.
  now rewrite IH.
Qed.

Lemma stripWs_tabs s :
  stripWs (map (fun c => if (c =? 9)%N then 32%N else c) s) = stripWs s.
Proof.
  induction s as [|c r IH]; simpl; trivial.
  destruct (N.eqb_spec c 9) as [->|Hc]; simpl; trivial.
  now rewrite IH.
Qed.

Lemma stripWs_collapseBlanks s :
  forall b, stripWs (collapseBlanksFrom b s) = stripWs s.
Proof.
  induction s as [|c r IH]; intros b; simpl; trivial.
  destruct (isBlank c) eqn:E.
  - rewrite (isWs_blank c E). simpl. destruct b; simpl; apply IH.
  - simpl. now rewrite IH.
Qed.

Lemma stripWs_collapseNewlines s :
  forall k, stripWs (collapseNewlinesFrom k s) = stripWs s.
Proof.
  induction s as [|c r IH]; intros k; cbn [collapseNewlinesFrom]; trivial.
  destruct (N.eqb_spec c 10) as [->|Hc].
  - destruct (2 <=? k); simpl; apply IH.
  - simpl. now rewrite IH.
Qed.

Lemma stripWs_normalizeText s : stripWs (normalizeText s) = stripWs s.
Proof.
  unfold normalizeText.
  now rewrite stripWs_trim, stripWs_collapseNewlines,
    stripWs_collapseBlanks, stripWs_tabs, stripWs_removeCR.
Qed.

Lemma dropWhile_all p s : forallb p s = true -> dropWhile p s = [].
Proof.
  induction s as [|c r IH]; simpl; trivial.
  intros H. apply andb_true_iff in H. destruct H as [Hc Hr].
  rewrite Hc. auto.
Qed.

Lemma stripWs_nil_all s : stripWs s = [] -> forallb isWs s = true.
Proof.
  induction s as [|c r IH]; simpl; trivial.
  destruct (isWs c); simpl; [exact IH | discriminate].
Qed.

Lemma trim_nil s : trim s = [] <-> stripWs s = [].
Proof.
  split.
  - intros H. rewrite <- stripWs_trim, H. reflexivity.
  - intros H. apply stripWs_nil_all in H. unfold trim, trimStart.
    now rewrite dropWhile_all.
Qed.

Lemma normalizeText_nil s : normalizeText s = [] <-> stripWs s = [].
Proof.
  rewrite <- stripWs_normalizeText. unfold normalizeText.
  rewrite trim_nil, stripWs_trim. reflexivity.
Qed.

(** Pieces of [split(/\n\n+/)] have no blank line. *)
Lemma blankLineFree_snoc s c :
  blankLineFree s = true ->
  (last s 0%N = 10%N -> c <> 10%N) ->
  blankLineFree (s ++ [c]) = true.
Proof.
  induction s as [|x r IH]; intros B H.
  { simpl. now rewrite andb_false_r. }
  simpl in B. apply andb_true_iff in B. destruct B as [B1 B2].
  destruct r as [|y r'].
  - simpl in H. cbn [app blankLineFree].
    rewrite andb_false_r, !andb_true_r.
    destruct (N.eqb_spec x 10) as [->|]; trivial.
    destruct (N.eqb_spec c 10) as [->|]; trivial.
    now specialize (H eq_refl).
  - assert (T : blankLineFree ((y :: r') ++ [c]) = true)
      by (apply IH; trivial).
    change ((x :: y :: r') ++ [c]) with (x :: y :: (r' ++ [c])).
    change ((y :: r') ++ [c]) with (y :: (r' ++ [c])) in T.
    apply andb_true_iff. split; [exact B1 | exact T].
Qed.

Lemma last_rev_cons (c : char) cur : last (rev (c :: cur)) 0%N = c.
Proof. simpl. apply last_last. Qed.

Lemma splitBlank_pieces s :
  forall insep cur,
    (insep = true -> cur = []) ->
    blankLineFree (rev cur) = true ->
    (last (rev cur) 0%N = 10%N -> hd 0%N s <> 10%N) ->
    Forall (fun p => blankLineFree p = true) (splitBlankFrom insep cur s).
Proof.
  induction s as [|c r IH]; intros insep cur Hi B H.
  - simpl. constructor; trivial.
  - assert (K : hd 0%N r <> 10%N \/ c <> 10%N ->
                Forall (fun p => blankLineFree p = true)
                  (splitBlankFrom false (c :: cur) r)).
    { intros D. apply IH; [discriminate| |].
      - simpl rev. apply blankLineFree_snoc; trivial.
      - rewrite last_rev_cons. intros ->. destruct D; congruence. }
    cbn [splitBlankFrom]. destruct (N.eqb_spec c 10) as [->|Hc].
    + destruct insep.
      * apply IH; trivial. simpl. discriminate.
      * destruct r as [|c' r']; [apply K; left; simpl; discriminate|].
        destruct (N.eqb_spec c' 10) as [->|Hc'].
        -- constructor; trivial. apply IH; trivial. simpl. discriminate.
        -- apply K. left. exact Hc'.
    + apply K. now right.
Qed.

Lemma blankLineFree_tail c r :
  blankLineFree (c :: r) = true -> blankLineFree r = true.
Proof. simpl. intros H. apply andb_true_iff in H. tauto. Qed.

Lemma blankLineFree_dropWhile p s :
  blankLineFree s = true -> blankLineFree (dropWhile p s) = true.
Proof.
  induction s as [|c r IH]; intros H; simpl; trivial.
  destruct (p c); trivial. apply IH. now apply blankLineFree_tail in H.
Qed.

Lemma blankLineFree_dropEndWhile p s :
  blankLineFree s = true -> blankLineFree (dropEndWhile p s) = true.
Proof.
  induction s as [|c r IH]; intros H; trivial.
  rewrite dropEndWhile_cons. destruct (p c && forallb p r); trivial.
  pose proof (IH (blankLineFree_tail c r H)) as T.
  cbn [blankLineFree]. apply andb_true_iff. split; [|exact T].
  cbn [blankLineFree] in H. apply andb_true_iff in H. destruct H as [H _].
  destruct (N.eqb_spec c 10) as [->|]; trivial.
  destruct r as [|c' r']; trivial.
  rewrite dropEndWhile_cons. destruct (p c' && forallb p r'); trivial.
Qed.

End TextFacts.

(** X1: Normalisation touches whitespace only: the non-space characters of the
    normalised text are those of the text, in order; so the normalised text
    is empty exactly when the text has no non-space character. *)
Theorem normalizeText_keeps_content (s : str) :
  stripWs (normalizeText s) = stripWs s
  /\ (normalizeText s = [] <-> stripWs s = []).
Proof.
  split.
  - apply TextFacts.stripWs_normalizeText.
  - apply TextFacts.normalizeText_nil.
Qed.

(** X2: The normalised text has no carriage return, no tab and no no-break
    space, no two spaces in a row, no three line feeds in a row, and no
    whitespace at either end. *)
Theorem normalizeText_form (s : str) :
  let t := normalizeText s in
  Forall (fun c => c <> 13%N /\ c <> 9%N /\ c <> 160%N) t
  /\ (forall l1 l2, t <> l1 ++ 32%N :: 32%N :: l2)
  /\ (forall l1 l2, t <> l1 ++ 10%N :: 10%N :: 10%N :: l2)
  /\ trim t = t.
Proof.
  intros t. destruct (Normal.normalizeText_normal s) as (P & B & L).
  fold t in P, B, L. repeat split.
  - apply Forall_forall. intros c Hc. unfold plain in P.
    rewrite Forall_forall in P. destruct (P c Hc) as [P1 P2].
    repeat split; trivial. intros ->.
    exact (TextFacts.blankOk_no_nbsp t false B Hc).
  - intros l1 l2 E. rewrite E in B.
    exact (TextFacts.blankOk_no_pair l1 l2 false B).
  - intros l1 l2 E. rewrite E in L.
    exact (TextFacts.lfOk_no_triple l1 l2 0 L).
  - unfold t, normalizeText. apply StrFacts.trim_idem.
Qed.

(** X3: Every semantic block is trimmed, has at least 40 non-space characters
    and holds no blank line. *)
Theorem splitSemanticBlocks_blocks (text : str) :
  Forall (fun b => trim b = b
                   /\ 40 <= length (stripWs b)
                   /\ blankLineFree b = true)
    (splitSemanticBlocks text).
Proof.
  unfold splitSemanticBlocks. apply Forall_forall. intros b H.
  apply filter_In in H. destruct H as [H L].
  apply filter_In in H. destruct H as [H _].
  apply in_map_iff in H. destruct H as (p & <- & Hp).
  split; [apply StrFacts.trim_idem|]. split; [now apply Nat.leb_le|].
  unfold trim, trimStart, trimEnd.
  apply TextFacts.blankLineFree_dropEndWhile,
    TextFacts.blankLineFree_dropWhile.
  pose proof (TextFacts.splitBlank_pieces text false [] 
                (fun H => eq_refl) eq_refl) as F.
  unfold splitBlank in Hp. rewrite Forall_forall in F. apply F; trivial.
  simpl. discriminate.
Qed.

(** ** Further properties of the chunker *)

Module GroupFacts.
Import StrFacts BlockFacts ChunkFacts.

Lemma wordsOfGroup_app a b :
  wordsOfGroup (a ++ b) = wordsOfGroup a + wordsOfGroup b.
Proof. induction a as [|x a IH]; simpl; [trivial | rewrite IH; lia]. Qed.

Lemma wordsFrom_app_ws a w rest :
  isWs w = true ->
  forall b,
    wordsFrom b (a ++ w :: rest) = wordsFrom b a + wordsFrom false rest.
Proof.
  intros Hw. induction a as [|c r IH]; intros b; simpl.
  - now rewrite Hw.
  - destruct (isWs c); rewrite IH; lia.
Qed.

Lemma wordCount_blank_line a b :
  wordCount (a ++ nn ++ b) = wordCount a + wordCount b.
Proof.
  rewrite !wordCount_words. unfold nn. simpl app.
  rewrite wordsFrom_app_ws by reflexivity. reflexivity.
Qed.

Lemma wordCount_join g : wordCount (join nn g) = wordsOfGroup g.
Proof.
  induction g as [|x g IH]; [reflexivity|].
  destruct g as [|y g].
  - simpl. lia.
  - rewrite join_cons by discriminate. rewrite wordCount_blank_line, IH.
    reflexivity.
Qed.

(** Joining groups that are joined is joining their blocks. *)
Lemma join_groups gs :
  Forall (fun g => g <> []) gs ->
  join nn (map (join nn) gs) = join nn (concat gs).
Proof.
  induction 1 as [|g gs Hg Hgs IH]; [reflexivity|].
  destruct gs as [|h gs].
  - simpl. now rewrite app_nil_r.
  - change (map (join nn) (g :: h :: gs))
      with (join nn g :: map (join nn) (h :: gs)).
    rewrite join_cons by discriminate. rewrite IH.
    change (concat (g :: h :: gs)) with (g ++ concat (h :: gs)).
    rewrite join_app; trivial.
    inversion Hgs as [|? ? Hh _]; subst. simpl. destruct h; [congruence|].
    discriminate.
Qed.

(** The first loop of [chunkBlocks] cuts the blocks into groups. *)
Lemma sized_one b : sized [b].
Proof. left. simpl. lia. Qed.

Lemma wordsOfGroup_one b : wordsOfGroup [b] = wordCount b.
Proof. unfold wordsOfGroup. cbn [fold_right]. lia. Qed.

Lemma chunkLoop_groups blocks :
  forall groups current w,
    Forall (fun g => g <> []) groups -> Forall sized groups ->
    sized current -> w = wordsOfGroup current ->
    exists groups',
      chunkLoop blocks (map (join nn) groups) current w
      = map (join nn) groups'
      /\ concat groups' = concat groups ++ current ++ blocks
      /\ Forall (fun g => g <> []) groups'
      /\ Forall sized groups'.
Proof.
  induction blocks as [|block rest IH]; intros groups current w Hne Hsz C W.
  - cbn [chunkLoop]. destruct current as [|x current].
    + exists groups. simpl. rewrite !app_nil_r. auto.
    + exists (groups ++ [x :: current]).
      change (0 <? length (x :: current)) with true. cbv iota.
      rewrite map_app, concat_app. simpl. rewrite !app_nil_r.
      split; [reflexivity|]. split; [reflexivity|].
      split; apply Forall_app; split; trivial; constructor; trivial.
      discriminate.
  - cbn [chunkLoop]. destruct current as [|x current].
    + change (0 <? length (@nil str)) with false. cbn [andb app].
      subst w. change (wordsOfGroup []) with 0.
      destruct (IH groups [block] (0 + wordCount block) Hne Hsz
                  (sized_one block))
        as (gs & E & K & R).
      { rewrite wordsOfGroup_one. reflexivity. }
      exists gs. split; [exact E|]. split; [|exact R].
      rewrite K. reflexivity.
    + change (0 <? length (x :: current)) with true. cbn [andb].
      destruct ((targetMaxWords <? w + wordCount block)
                || (targetMinWords <=? w)) eqn:D.
      * assert (Hne' : Forall (fun g => g <> []) (groups ++ [x :: current])).
        { apply Forall_app. split; trivial. constructor; trivial.
          discriminate. }
        assert (Hsz' : Forall sized (groups ++ [x :: current])).
        { apply Forall_app. split; trivial. constructor; trivial. }
        destruct (IH (groups ++ [x :: current]) [block] (wordCount block)
                    Hne' Hsz' (sized_one block))
          as (gs & E & K & R).
        { now rewrite wordsOfGroup_one. }
        exists gs. rewrite map_app in E. split; [exact E|].
        split; [|exact R]. rewrite K, concat_app. simpl.
        rewrite !app_nil_r, <- !app_assoc. reflexivity.
      * apply orb_false_iff in D. destruct D as [D _].
        apply Nat.ltb_ge in D.
        assert (C' : sized ((x :: current) ++ [block])).
        { right. rewrite wordsOfGroup_app, wordsOfGroup_one. subst w.
          exact D. }
        destruct (IH groups ((x :: current) ++ [block])
                    (w + wordCount block) Hne Hsz C')
          as (gs & E & K & R).
        { rewrite wordsOfGroup_app, wordsOfGroup_one. now subst w. }
        exists gs. split; [exact E|]. split; [|exact R].
        rewrite K, <- !app_assoc. reflexivity.
Qed.

Lemma rawChunks_groups blocks :
  exists groups,
    rawChunks blocks = map (join nn) groups
    /\ concat groups = blocks
    /\ Forall (fun g => g <> []) groups
    /\ Forall sized groups.
Proof.
  destruct (chunkLoop_groups blocks [] [] 0) as (gs & E & K & R).
  - constructor.
  - constructor.
  - left. simpl. lia.
  - reflexivity.
  - exists gs. split; [exact E|]. split; [exact K | exact R].
Qed.

End GroupFacts.

(** X4: The first loop of the chunker neither splits, drops nor reorders a
    block: the raw chunks are the joins of consecutive, non-empty groups of
    the blocks. *)
Theorem rawChunks_partition (blocks : list str) :
  exists groups,
    rawChunks blocks = map (join nn) groups
    /\ concat groups = blocks
    /\ Forall (fun g => g <> []) groups.
Proof.
  destruct (GroupFacts.rawChunks_groups blocks) as (gs & E & K & Hne & _).
  exists gs. auto.
Qed.

(** X5: A raw chunk has at most 280 words, unless it is a single block. *)
Theorem rawChunks_size (blocks : list str) :
  Forall (fun chunk => In chunk blocks \/ wordCount chunk <= 280)
    (rawChunks blocks).
Proof.
  destruct (GroupFacts.rawChunks_groups blocks) as (gs & E & K & Hne & Hsz).
  rewrite E. apply Forall_map. apply Forall_forall. intros g Hg.
  rewrite Forall_forall in Hsz, Hne.
  specialize (Hsz g Hg). specialize (Hne g Hg).
  destruct Hsz as [Hsz|Hsz].
  - left. destruct g as [|b [|c g]]; [congruence | | simpl in Hsz; lia].
    simpl. rewrite <- K. apply in_concat. exists [b]. split; trivial.
    now left.
  - right. rewrite GroupFacts.wordCount_join. exact Hsz.
Qed.

(** X6: For a positive ceiling the chunker keeps all the text of the blocks:
    its chunks joined with blank lines are the blocks joined with blank
    lines. *)
Theorem chunkBlocks_keeps_content (blocks : list str) (maxChunks : nat) :
  0 < maxChunks ->
  join nn (chunkBlocks blocks maxChunks) = join nn blocks.
Proof.
  intros Hm.
  assert (R : join nn (rawChunks blocks) = join nn blocks).
  { destruct (GroupFacts.rawChunks_groups blocks) as (gs & E & K & Hne & _).
    rewrite E, GroupFacts.join_groups, K; trivial. }
  unfold chunkBlocks.
  destruct (Nat.leb_spec (length (rawChunks blocks)) maxChunks) as [L|L];
    trivial.
  destruct maxChunks as [|m]; [lia|].
  assert (Hr : 0 < ceilDiv (length (rawChunks blocks)) (S m)).
  { pose proof (ChunkFacts.ceilDiv_mul (length (rawChunks blocks)) (S m)).
    destruct (ceilDiv (length (rawChunks blocks)) (S m)); lia. }
  destruct (ChunkFacts.reduceLoop_spec (rawChunks blocks) _ Hr
              (S (length (rawChunks blocks))) 0 [])
    as (out & E & Hlen & Hjoin); [lia|].
  simpl app in E. rewrite E. rewrite Nat.sub_0_r in Hlen.
  rewrite ChunkFacts.slice_0, firstn_all2.
  - rewrite Hjoin. exact R.
  - rewrite Hlen. apply ChunkFacts.ceilDiv_ceilDiv; lia.
Qed.

Lemma chunkBlocks_keeps_content_witness :
  join nn (chunkBlocks (repeat (wordsOf (lit "alpha") 150) 5) 2)
  = join nn (repeat (wordsOf (lit "alpha") 150) 5).
Proof.
  apply (chunkBlocks_keeps_content (repeat (wordsOf (lit "alpha") 150) 5) 2).
  lia.
Defined.

(** ** Conditions and titles *)

Module CollFacts.
Import StrFacts.

Lemma setAdd_In x y s : In y (setAdd x s) <-> In y s \/ y = x.
Proof.
  unfold setAdd. destruct (mem x s) eqn:E.
  - apply mem_In in E. split; [auto|]. intros [H | ->]; trivial.
  - rewrite in_app_iff. simpl. intuition.
Qed.

Lemma setAdd_NoDup x s : NoDup s -> NoDup (setAdd x s).
Proof.
  intros H. unfold setAdd. destruct (mem x s) eqn:E; trivial.
  apply mem_not_In in E. apply NoDup_app; trivial.
  - constructor; [intros [] | constructor].
  - intros y Hy [<- | []]. contradiction.
Qed.

Lemma setFold_In l :
  forall s y,
    In y (fold_left (fun s x => setAdd x s) l s) <-> In y s \/ In y l.
Proof.
  induction l as [|x l IH]; intros s y; simpl.
  - tauto.
  - rewrite IH, setAdd_In. intuition.
Qed.

Lemma setFold_NoDup l :
  forall s, NoDup s -> NoDup (fold_left (fun s x => setAdd x s) l s).
Proof.
  induction l as [|x l IH]; intros s H; simpl; trivial.
  apply IH. now apply setAdd_NoDup.
Qed.

Lemma setOf_In l y : In y (setOf l) <-> In y l.
Proof. unfold setOf. rewrite setFold_In. simpl. tauto. Qed.

Lemma setOf_NoDup l : NoDup (setOf l).
Proof. apply setFold_NoDup. constructor. Qed.

Lemma NoDup_firstn {A} n (l : list A) : NoDup l -> NoDup (firstn n l).
Proof.
  intros H. rewrite <- (firstn_skipn n l) in H.
  now apply NoDup_app_remove_r in H.
Qed.

End CollFacts.

Module ConditionFacts.

Lemma conditionsOfPattern_kept text p :
  forall found,
    Forall (fun c => 8 <= length c <= 100 /\ trim c = c) found ->
    Forall (fun c => 8 <= length c <= 100 /\ trim c = c)
      (conditionsOfPattern text found p).
Proof.
  unfold conditionsOfPattern.
  induction (matchAll p text) as [|m ms IH]; intros found H;
    cbn [fold_left]; trivial.
  apply IH.
  destruct ((8 <=? length (trim (collapseWs m)))
            && (length (trim (collapseWs m)) <=? 100)) eqn:E; trivial.
  apply andb_true_iff in E. destruct E as [L1 L2].
  apply Nat.leb_le in L1, L2.
  apply Forall_app. split; trivial.
  constructor; [|constructor]. split; [lia|]. apply StrFacts.trim_idem.
Qed.

Lemma found_kept text ps :
  forall found,
    Forall (fun c => 8 <= length c <= 100 /\ trim c = c) found ->
    Forall (fun c => 8 <= length c <= 100 /\ trim c = c)
      (fold_left (conditionsOfPattern text) ps found).
Proof.
  induction ps as [|p ps IH]; intros found H; simpl; trivial.
  apply IH. now apply conditionsOfPattern_kept.
Qed.

End ConditionFacts.

(** X7: The condition extractor returns at most eight clauses, no two of them
    equal, each of 8 to 100 code units and without whitespace at either
    end. *)
Theorem extractConditions_shape (text : str) :
  length (extractConditions text) <= 8
  /\ NoDup (extractConditions text)
  /\ Forall (fun c => 8 <= length c <= 100 /\ trim c = c)
       (extractConditions text).
Proof.
  unfold extractConditions. rewrite ChunkFacts.slice_0.
  split; [apply firstn_le_length|]. split.
  - apply CollFacts.NoDup_firstn, CollFacts.setOf_NoDup.
  - apply ListFacts.Forall_firstn. apply Forall_forall. intros c Hc.
    apply (proj1 (CollFacts.setOf_In _ _)) in Hc.
    pose proof (ConditionFacts.found_kept text CONDITIONAL_PATTERNS []
                  (Forall_nil _)) as F.
    rewrite Forall_forall in F. exact (F c Hc).
Qed.

Module TitleFacts.
Import StrFacts.

Lemma dropEndWhile_head p c r :
  p c = false -> exists r', dropEndWhile p (c :: r) = c :: r'.
Proof.
  intros H. rewrite dropEndWhile_cons, H. simpl. eauto.
Qed.

Lemma dropWhile_head p s :
  dropWhile p s = [] \/ exists c r, dropWhile p s = c :: r /\ p c = false.
Proof.
  induction s as [|c r IH]; simpl; [now left|].
  destruct (p c) eqn:E; trivial. right. eauto.
Qed.

(** A trimmed string is empty or starts with a character that is no
    whitespace. *)
Lemma trim_head s :
  trim s = [] \/ exists c r, trim s = c :: r /\ isWs c = false.
Proof.
  unfold trim, trimStart, trimEnd.
  destruct (dropWhile_head isWs s) as [E | (c & r & E & Hc)].
  - left. now rewrite E.
  - right. rewrite E. destruct (dropEndWhile_head isWs c r Hc) as (r' & E').
    rewrite E'. eauto.
Qed.

End TitleFacts.

(** X8: A title is never empty and does not start with whitespace; it has at
    most 42 code units, unless it is the id that stands in for a line with
    nothing to show; and it has a line feed only if the line has one. *)
Theorem toTitle_shape (line : str) (index : nat) :
  (exists c r, toTitle line index = c :: r /\ isWs c = false)
  /\ (length (toTitle line index) <= 42 \/ toTitle line index = skillId index)
  /\ (noLF line -> noLF (toTitle line index)).
Proof.
  split; [|split; [|apply LineFacts.noLF_toTitle]].
  - unfold toTitle.
    match goal with |- context [trim ?x] => set (raw := x) end.
    destruct (TitleFacts.trim_head raw) as [E | (c & r & E & Hc)];
      rewrite E; cbn [nonEmpty].
    + unfold skillId. simpl app. eexists. eexists. split; reflexivity.
    + destruct (42 <? length (c :: r)).
      * rewrite ChunkFacts.slice_0. simpl. eauto.
      * eauto.
  - unfold toTitle.
    match goal with |- context [trim ?x] => set (clean := trim x) end.
    destruct (nonEmpty clean); [|now right].
    destruct (Nat.ltb_spec 42 (length clean)) as [L|L]; [|now left].
    left. rewrite ChunkFacts.slice_0. apply firstn_le_length.
Qed.

(** ** Ids, the manifest and the inputs of [run] *)

Module IdFacts.
Import StrFacts.

Lemma uintOf_digits d : uintOf (digits d) = d.
Proof. induction d; simpl; try (f_equal; assumption); reflexivity. Qed.

Lemma of_uint_zeros k s :
  N.of_uint (uintOf (repeat 48%N k ++ s)) = N.of_uint (uintOf s).
Proof. induction k as [|k IH]; simpl; trivial. Qed.

(** The number a padded numeral spells is the number padded. *)
Lemma value_padStart0 k n :
  N.of_uint (uintOf (padStart0 k (Str.ofN n))) = n.
Proof.
  unfold padStart0, Str.ofN. rewrite of_uint_zeros, uintOf_digits.
  apply DecimalN.Unsigned.of_to.
Qed.

Lemma skillId_inj i j : skillId i = skillId j -> i = j.
Proof.
  unfold skillId, Str.ofNat. intros H. apply app_inv_head in H.
  apply (f_equal (fun s => N.of_uint (uintOf s))) in H.
  rewrite !value_padStart0 in H. lia.
Qed.

Lemma map_fst_indexed {A} (l : list A) :
  map fst (indexed l) = List.seq 0 (length l).
Proof.
  unfold indexed. generalize 0.
  induction l as [|x l IH]; intros n; simpl; trivial. now rewrite IH.
Qed.

Lemma NoDup_map_inj {A B} (f : A -> B) l :
  (forall x y, f x = f y -> x = y) -> NoDup l -> NoDup (map f l).
Proof.
  intros Hf. induction 1 as [|x l Hx Hl IH]; simpl; constructor; trivial.
  intros H. apply in_map_iff in H. destruct H as (y & E & Hy).
  apply Hf in E. now subst.
Qed.

Lemma skillItems_ids toLowerCase mode chunks :
  map id (skillItems toLowerCase mode chunks)
  = map skillId (List.seq 0 (length chunks)).
Proof.
  unfold skillItems. rewrite <- map_fst_indexed, !map_map.
  apply map_ext. intros [idx chunk]. reflexivity.
Qed.

Lemma ids_NoDup toLowerCase mode chunks :
  NoDup (map id (skillItems toLowerCase mode chunks)).
Proof.
  rewrite skillItems_ids. apply NoDup_map_inj.
  - apply skillId_inj.
  - apply seq_NoDup.
Qed.

(** The path of an item's file is none of the six fixed paths. *)
Lemma item_path_fresh x :
  ~ In (lit "skills/" ++ skillId x ++ lit ".md")
      [ lit "SKILL.md"; lit "README.md"; lit "skills/index.md";
        lit "skills/dependency-graph.md"; lit "skills/routes.json";
        lit "references/source_excerpt.md" ].
Proof.
  unfold skillId. generalize (padStart0 3 (Str.ofNat (x + 1))).
  intros s H. cbv in H.
  repeat (destruct H as [H|H]; [discriminate|]). exact H.
Qed.

Lemma item_path_inj i j :
  lit "skills/" ++ skillId i ++ lit ".md"
  = lit "skills/" ++ skillId j ++ lit ".md" -> i = j.
Proof.
  intros H. apply app_inv_head, app_inv_tail in H. now apply skillId_inj.
Qed.

Lemma item_paths toLowerCase mode chunks :
  map (fun it => lit "skills/" ++ id it ++ lit ".md")
    (skillItems toLowerCase mode chunks)
  = map (fun i => lit "skills/" ++ skillId i ++ lit ".md")
      (List.seq 0 (length chunks)).
Proof.
  rewrite <- (map_map id (fun s => lit "skills/" ++ s ++ lit ".md")).
  rewrite skillItems_ids, map_map. reflexivity.
Qed.

Lemma fixed_paths_NoDup :
  NoDup [ lit "SKILL.md"; lit "README.md"; lit "skills/index.md";
          lit "skills/dependency-graph.md"; lit "skills/routes.json" ].
Proof.
  repeat (apply NoDup_cons;
          [intros H; cbv in H;
           repeat (destruct H as [H|H]; [discriminate|]); exact H|]).
  apply NoDup_nil.
Qed.

Lemma paths_NoDup n :
  NoDup ([ lit "SKILL.md"; lit "README.md"; lit "skills/index.md";
           lit "skills/dependency-graph.md"; lit "skills/routes.json" ]
         ++ map (fun i => lit "skills/" ++ skillId i ++ lit ".md")
              (List.seq 0 n)
         ++ [lit "references/source_excerpt.md"]).
Proof.
  set (fixed := [ lit "SKILL.md"; lit "README.md"; lit "skills/index.md";
                  lit "skills/dependency-graph.md";
                  lit "skills/routes.json" ]).
  set (final := lit "references/source_excerpt.md").
  assert (F : forall x,
             In x (map (fun i => lit "skills/" ++ skillId i ++ lit ".md")
                     (List.seq 0 n)) ->
             ~ In x (fixed ++ [final])).
  { intros x Hx. apply in_map_iff in Hx. destruct Hx as (i & <- & _).
    apply item_path_fresh. }
  apply NoDup_app.
  - apply fixed_paths_NoDup.
  - apply NoDup_app.
    + apply NoDup_map_inj; [apply item_path_inj | apply seq_NoDup].
    + constructor; [intros [] | constructor].
    + intros x Hx [<- | []]. apply (F _ Hx).
      apply in_or_app. right. now left.
  - intros x Hx Hin. apply in_app_iff in Hin. destruct Hin as [Hin|Hin].
    + apply (F _ Hin). apply in_or_app. now left.
    + destruct Hin as [<- | []]. unfold fixed, final in Hx. cbv in Hx.
      repeat (destruct Hx as [Hx|Hx]; [discriminate|]). exact Hx.
Qed.

(** The index that line 580 recovers from an id. *)
Lemma recoveredIndex_value idx :
  idx <= 999 ->
  recoveredIndex idx = if idx <? 999 then Z.of_nat idx else (-1)%Z.
Proof.
  assert (H : forallb
                (fun idx =>
                   (recoveredIndex idx
                    =? (if (idx <? 999)%nat then Z.of_nat idx else -1))%Z)
                (List.seq 0 1000) = true) by (vm_compute; reflexivity).
  rewrite forallb_forall in H. intros L.
  apply Z.eqb_eq, H, in_seq. lia.
Qed.

Lemma combine_seq_nth {A} (l : list A) :
  forall k i,
    nth_error (combine (List.seq k (length l)) l) i
    = option_map (pair (k + i)) (nth_error l i).
Proof.
  induction l as [|x l IH]; intros k i.
  - now destruct i.
  - destruct i as [|i]; simpl.
    + now rewrite Nat.add_0_r.
    + rewrite IH. now rewrite Nat.add_succ_r.
Qed.

Lemma skillItems_nth toLowerCase mode chunks i :
  nth_error (skillItems toLowerCase mode chunks) i
  = option_map (skillItem toLowerCase mode i) (nth_error chunks i).
Proof.
  unfold skillItems, indexed. rewrite nth_error_map, combine_seq_nth.
  now destruct (nth_error chunks i).
Qed.

Lemma fileOf_NoDup path body fs :
  NoDup (map fst fs) -> In (path, body) fs -> fileOf path fs = Some body.
Proof.
  induction fs as [|[p b] fs IH]; intros N H; [destruct H|].
  cbn [fileOf]. cbn [map fst] in N. inversion N as [|? ? Hp Hfs]; subst.
  destruct H as [H|H].
  - injection H as -> ->.
    now rewrite (proj2 (StrFacts.eqb_eq path path) eq_refl).
  - destruct (Str.eqb path p) eqn:E.
    + apply StrFacts.eqb_eq in E. subst p. exfalso. apply Hp.
      apply in_map_iff. now exists (path, body).
    + now apply IH.
Qed.

Lemma ofZ_of_nat n : Str.ofZ (Z.of_nat n) = Str.ofNat n.
Proof.
  unfold Str.ofNat. rewrite <- (N2Z.id (N.of_nat n)), nat_N_Z.
  now destruct (Z.of_nat n) eqn:E; [| |lia].
Qed.

(** The second line of what [buildAtomicSkillMd] returns. *)
Lemma nameLine_atomic index title content keywords steps conditions :
  nameLine (buildAtomicSkillMd index title content keywords steps conditions)
  = lit "name: " ++ lit "skill-" ++ padStart0 3 (Str.ofZ (index + 1)).
Proof.
  unfold buildAtomicSkillMd, lines, nameLine, splitLines.
  cbn [app]. rewrite !ChunkFacts.join_cons by discriminate.
  rewrite (LineFacts.splitLines_cons (lit "---"))
    by (apply LineFacts.noLF_b; reflexivity).
  rewrite LineFacts.splitLines_cons; [reflexivity|].
  apply LineFacts.noLF_app; [apply LineFacts.noLF_b; reflexivity|].
  apply LineFacts.noLF_app; [apply LineFacts.noLF_b; reflexivity|].
  apply LineFacts.noLF_padStart0, LineFacts.noLF_ofZ.
Qed.

End IdFacts.

(** X9: The ids of the items of a run are [skill-001], [skill-002], ... in the
    order of the chunks, and no two items share an id. *)
Theorem item_ids (toLowerCase : str -> str) (mode : langMode)
    (chunks : list str) :
  map id (skillItems toLowerCase mode chunks)
  = map skillId (List.seq 0 (length chunks))
  /\ NoDup (map id (skillItems toLowerCase mode chunks)).
Proof.
  split; [apply IdFacts.skillItems_ids | apply IdFacts.ids_NoDup].
Qed.

(** X10: In the manifest of a run, the file of the item at index [idx] is
    what [buildAtomicSkillMd] renders from the index that line 580 recovers
    from the last three characters of the id of the item.  For the first
    999 items that is the index of the item, and the second line of the
    file names the id of the item; for the 1000th item, whose id is
    [skill-1000], it is -1, and the file [skills/skill-1000.md] names
    [skill-000]. *)
Theorem item_file_name (toLowerCase : str -> str) (a : args) (text : str)
    (p : pack) (idx : nat) :
  compile toLowerCase a text = Compiled p ->
  idx < length (packItems p) -> idx <= 999 ->
  let index := if idx <? 999 then Z.of_nat idx else (-1)%Z in
  exists it md,
    nth_error (packItems p) idx = Some it
    /\ id it = skillId idx
    /\ fileOf (lit "skills/" ++ skillId idx ++ lit ".md") (files p)
       = Some (Text md)
    /\ md = buildAtomicSkillMd index (title it) (content it) (keywords it)
              (steps it) (conditions it)
    /\ nameLine md
       = lit "name: " ++ (if idx <? 999 then skillId idx else lit "skill-000").
Proof.
  intros H L B index. apply RunFacts.compile_compiled in H.
  destruct H as (chunks & _ & _ & ->). cbn [files packItems] in *.
  set (items := skillItems toLowerCase (mode a) chunks) in *.
  destruct (nth_error chunks idx) as [chunk|] eqn:C.
  2:{ apply nth_error_None in C. unfold items in L.
      rewrite RunFacts.skillItems_length in L. lia. }
  set (it := skillItem toLowerCase (mode a) idx chunk).
  assert (Hit : nth_error items idx = Some it).
  { unfold items. now rewrite IdFacts.skillItems_nth, C. }
  assert (Hrec : (numberOf (skipn (length (id it) - 3) (id it)) - 1)%Z
                 = index).
  { change (recoveredIndex idx = index).
    now apply IdFacts.recoveredIndex_value. }
  exists it,
    (buildAtomicSkillMd index (title it) (content it) (keywords it)
       (steps it) (conditions it)).
  split; [exact Hit|]. split; [reflexivity|]. split; [|split].
  - apply IdFacts.fileOf_NoDup.
    + unfold manifest. rewrite !map_app, map_map. cbn [map fst].
      unfold items. rewrite IdFacts.item_paths. apply IdFacts.paths_NoDup.
    + unfold manifest. apply in_or_app. right. apply in_or_app. left.
      apply in_map_iff. exists it. split.
      * rewrite Hrec. reflexivity.
      * apply (nth_error_In _ _ Hit).
  - reflexivity.
  - rewrite IdFacts.nameLine_atomic. f_equal. unfold index.
    destruct (idx <? 999); [|reflexivity].
    unfold skillId. do 2 f_equal.
    rewrite <- IdFacts.ofZ_of_nat. f_equal. lia.
Qed.

(** The file of the first item of a sample run. *)
Lemma item_file_name_witness :
  exists md,
    fileOf (lit "skills/skill-001.md")
      (files (packOf (compile asciiLower sampleArgs twoShort)))
    = Some (Text md)
    /\ nameLine md = lit "name: skill-001".
Proof.
  destruct (item_file_name asciiLower sampleArgs twoShort
              (packOf (compile asciiLower sampleArgs twoShort)) 0)
    as (it & md & _ & _ & F & _ & Nm).
  - vm_compute. reflexivity.
  - vm_compute. lia.
  - lia.
  - exists md. split; [exact F | exact Nm].
Defined.

(** X11: The manifest of a run has six files and one file for each item, and no
    two of its files have the same path. *)
Theorem manifest_paths (toLowerCase : str -> str) (a : args) (text : str)
    (p : pack) :
  compile toLowerCase a text = Compiled p ->
  length (files p) = 6 + length (packItems p)
  /\ NoDup (map fst (files p)).
Proof.
  intros H. apply RunFacts.compile_compiled in H.
  destruct H as (chunks & _ & _ & ->).
  cbn [files packItems]. unfold manifest. split.
  - rewrite !length_app, length_map. simpl. lia.
  - rewrite !map_app, map_map. cbn [map fst].
    rewrite IdFacts.item_paths. apply IdFacts.paths_NoDup.
Qed.

Lemma manifest_paths_witness :
  length (files (packOf (compile asciiLower sampleArgs twoShort)))
  = 6 + length (packItems (packOf (compile asciiLower sampleArgs twoShort)))
  /\ NoDup (map fst (files (packOf (compile asciiLower sampleArgs twoShort)))).
Proof.
  apply (manifest_paths asciiLower sampleArgs twoShort).
  vm_compute. reflexivity.
Defined.

Module InputFacts.
Import StrFacts.

Lemma extracted_nil inputs :
  extracted inputs = [] <-> Forall (fun i => stripWs (snd i) = []) inputs.
Proof.
  induction inputs as [|[name text] l IH]; simpl.
  - split; constructor.
  - destruct (normalizeText text) eqn:E.
    + apply TextFacts.normalizeText_nil in E. simpl. rewrite IH. split.
      * intros H. now constructor.
      * intros H. now inversion H.
    + simpl. split; [discriminate|]. intros H. inversion H as [|? ? H1 _].
      simpl in H1. apply TextFacts.normalizeText_nil in H1. congruence.
Qed.

(** What [extracted] gives starts with the heading of a source. *)
Lemma extracted_head inputs x l :
  extracted inputs = x :: l -> exists r, x = 35%N :: r.
Proof.
  induction inputs as [|[name text] rest IH]; simpl; [discriminate|].
  destruct (nonEmpty (normalizeText text)); simpl; trivial.
  intros H. injection H as <- _. eexists. reflexivity.
Qed.

Lemma join_head x l : exists r, join nn ((35%N :: x) :: l) = 35%N :: r.
Proof. destruct l; simpl; eauto. Qed.

End InputFacts.

(** X12: Past the usage check and the file check, so with at least one
    input, [run] fails with EmptyExtraction exactly when the text read from
    every input is made of whitespace only. *)
Theorem extraction_empty (toLowerCase : str -> str) (a : args)
    (inputs : list (str * str)) :
  inputs <> [] ->
  (compile toLowerCase a (join nn (extracted inputs)) = Failed EmptyExtraction
   <-> Forall (fun i => stripWs (snd i) = []) inputs).
Proof.
  intros _. rewrite <- InputFacts.extracted_nil.
  rewrite RunFacts.compile_empty.
  destruct (extracted inputs) as [|x l] eqn:E.
  - simpl. split; reflexivity.
  - destruct (InputFacts.extracted_head inputs x l E) as (r & ->).
    set (t := join nn _).
    assert (Ht : exists r', t = 35%N :: r') by apply InputFacts.join_head.
    destruct Ht as (r' & Ht). split; [|discriminate].
    intros N. apply TextFacts.normalizeText_nil in N. rewrite Ht in N.
    discriminate.
Qed.

(** One input whose text is two spaces. *)
Lemma extraction_empty_witness :
  compile asciiLower sampleArgs
    (join nn (extracted [(lit "a.pdf", lit "  ")]))
  = Failed EmptyExtraction
  <-> Forall (fun i => stripWs (snd i) = []) [(lit "a.pdf", lit "  ")].
Proof.
  apply (extraction_empty asciiLower sampleArgs [(lit "a.pdf", lit "  ")]).
  discriminate.
Defined.

(** ** The skill name *)

Module SlugFacts.
Import StrFacts.

Lemma isSlugChar_hyphen c : isSlugChar c = true -> (c =? 45)%N = false.
Proof.
  intros H. destruct (N.eqb_spec c 45) as [->|]; trivial. discriminate.
Qed.

Lemma between_spec lo hi c :
  between lo hi c = true <-> (lo <= c <= hi)%N.
Proof.
  unfold between. rewrite andb_true_iff, !N.leb_le. tauto.
Qed.

Lemma isSlugChar_isWs c : isSlugChar c = true -> isWs c = false.
Proof.
  unfold isSlugChar, isLower, isDigit, isCjk. intros H.
  assert (R : (97 <= c <= 122)%N \/ (48 <= c <= 57)%N
              \/ (19968 <= c <= 40869)%N).
  { apply orb_true_iff in H. destruct H as [H|H].
    - apply orb_true_iff in H.
      destruct H as [H|H]; apply between_spec in H; auto.
    - apply between_spec in H. auto. }
  destruct (isWs c) eqn:W; trivial. exfalso.
  unfold isWs in W. apply orb_true_iff in W. destruct W as [W|W].
  - unfold oneOf in W. apply existsb_exists in W.
    destruct W as (k & Hk & E). apply N.eqb_eq in E. subst k.
    simpl in Hk. repeat (destruct Hk as [Hk|Hk]; [subst c; lia|]).
    exact Hk.
  - apply between_spec in W. lia.
Qed.

Lemma hyphenOk_weaken b s : hyphenOk b s -> hyphenOk false s.
Proof.
  destruct s as [|c r]; simpl; trivial.
  destruct (c =? 45)%N; tauto.
Qed.

Lemma hyphenOk_tail b c r : hyphenOk b (c :: r) -> hyphenOk false r.
Proof.
  simpl. destruct (c =? 45)%N; intros [_ H]; trivial.
  now apply hyphenOk_weaken in H.
Qed.

Lemma hyphenate_ok s : forall b, hyphenOk b (hyphenateFrom b s).
Proof.
  induction s as [|c r IH]; intros b; simpl; trivial.
  destruct (isSlugChar c) eqn:E.
  - simpl. rewrite (isSlugChar_hyphen c E). auto.
  - destruct b; simpl; auto.
Qed.

Lemma hyphenate_fixed s : forall b, hyphenOk b s -> hyphenateFrom b s = s.
Proof.
  induction s as [|c r IH]; intros b; simpl; trivial.
  destruct (N.eqb_spec c 45) as [->|Hc].
  - intros [-> H]. simpl. now rewrite IH.
  - intros [E H]. rewrite E. now rewrite IH.
Qed.

Lemma collapseHyphens_fixed s :
  forall b, hyphenOk b s -> collapseHyphensFrom b s = s.
Proof.
  induction s as [|c r IH]; intros b; simpl; trivial.
  destruct (N.eqb_spec c 45) as [->|Hc].
  - intros [-> H]. now rewrite IH.
  - intros [E H]. now rewrite IH.
Qed.

Lemma stripFirst_ok s : hyphenOk false s -> hyphenOk true (stripFirstHyphen s).
Proof.
  destruct s as [|c r]; simpl; trivial.
  destruct (N.eqb_spec c 45) as [->|Hc].
  - tauto.
  - intros [E H]. simpl. apply N.eqb_neq in Hc. now rewrite Hc.
Qed.

Lemma stripLast_cons c r :
  stripLastHyphen (c :: r)
  = match r with
    | [] => if (c =? 45)%N then [] else [c]
    | _ :: _ => c :: stripLastHyphen r
    end.
Proof. destruct r; reflexivity. Qed.

Lemma stripLast_ok s : forall b, hyphenOk b s -> hyphenOk b (stripLastHyphen s).
Proof.
  induction s as [|c r IH]; intros b H; trivial.
  rewrite stripLast_cons. destruct r as [|c' r'].
  - simpl in *. destruct (c =? 45)%N eqn:E; simpl; trivial.
    now rewrite E.
  - cbn [hyphenOk] in *. destruct (c =? 45)%N.
    + destruct H as [Hb H]. split; trivial. now apply IH.
    + destruct H as [Hb H]. split; trivial. now apply IH.
Qed.

Lemma stripLast_last s :
  forall b, hyphenOk b s -> last (stripLastHyphen s) 0%N <> 45%N.
Proof.
  induction s as [|c r IH]; intros b H; [discriminate|].
  rewrite stripLast_cons. destruct r as [|c' r'].
  - destruct (N.eqb_spec c 45); simpl; [discriminate | trivial].
  - pose proof (IH false (hyphenOk_tail b c _ H)) as L.
    destruct (stripLastHyphen (c' :: r')) as [|x l] eqn:E; [|exact L].
    (* the rest was the single hyphen: [c] is before it *)
    simpl. cbn [hyphenOk] in H.
    destruct (N.eqb_spec c 45) as [->|Hc]; trivial.
    destruct H as [_ H]. rewrite stripLast_cons in E.
    destruct r' as [|c'' r'']; [|discriminate].
    simpl in H. destruct (c' =? 45)%N; [|discriminate].
    destruct H as [H _]. discriminate.
Qed.

Lemma stripLast_fixed s : last s 0%N <> 45%N -> stripLastHyphen s = s.
Proof.
  induction s as [|c r IH]; intros H; trivial.
  rewrite stripLast_cons. destruct r as [|c' r'].
  - simpl in H. apply N.eqb_neq in H. now rewrite H.
  - f_equal. apply IH. exact H.
Qed.

Lemma stripFirst_fixed s : hyphenOk true s -> stripFirstHyphen s = s.
Proof.
  destruct s as [|c r]; simpl; trivial.
  destruct (c =? 45)%N; trivial. intros [H _]. discriminate.
Qed.

Lemma hyphenOk_chars s :
  forall b, hyphenOk b s ->
  Forall (fun c => isSlugChar c = true \/ c = 45%N) s.
Proof.
  induction s as [|c r IH]; intros b H; constructor.
  - simpl in H. destruct (N.eqb_spec c 45); [now right | left; tauto].
  - simpl in H. destruct (c =? 45)%N; destruct H as [_ H]; eauto.
Qed.

Lemma hyphenOk_no_pair l1 l2 :
  forall b, ~ hyphenOk b (l1 ++ 45%N :: 45%N :: l2).
Proof.
  induction l1 as [|c r IH]; intros b H.
  - simpl in H. destruct H as (_ & H & _). discriminate.
  - apply hyphenOk_tail in H. exact (IH false H).
Qed.

Lemma hyphenOk_head s : hyphenOk true s -> hd 0%N s <> 45%N.
Proof.
  destruct s as [|c r]; simpl; [discriminate|].
  destruct (N.eqb_spec c 45); trivial. intros [H _]. discriminate.
Qed.

Lemma hyphenOk_trim s : forall b, hyphenOk b s -> trim s = s.
Proof.
  intros b H. apply hyphenOk_chars in H.
  assert (W : Forall (fun c => isWs c = false) s).
  { eapply Forall_impl; [|exact H]. intros c [E | ->].
    - now apply isSlugChar_isWs.
    - reflexivity. }
  clear H. unfold trim, trimStart, trimEnd.
  assert (D : dropWhile isWs s = s).
  { destruct W as [|c r Hc _]; simpl; trivial. now rewrite Hc. }
  rewrite D. induction W as [|c r Hc Hr IH]; trivial.
  rewrite dropEndWhile_cons, Hc. simpl. f_equal. apply IH.
  destruct Hr as [|c' r' Hc' _]; simpl; trivial. now rewrite Hc'.
Qed.

(** What [slugify] returns, in the form of its last two steps. *)
Lemma slugify_ok toLowerCase name :
  hyphenOk true (slugify toLowerCase name)
  /\ last (slugify toLowerCase name) 0%N <> 45%N.
Proof.
  unfold slugify.
  set (h := hyphenateFrom false (toLowerCase (trim name))).
  assert (H : hyphenOk false h) by apply hyphenate_ok.
  rewrite (collapseHyphens_fixed h false H).
  pose proof (stripFirst_ok h H) as F. split.
  - now apply stripLast_ok.
  - now apply (stripLast_last _ true).
Qed.

Lemma asciiLower_fixed s : hyphenOk false s -> asciiLower s = s.
Proof.
  intros H. apply hyphenOk_chars in H. unfold asciiLower.
  induction H as [|c r Hc Hr IH]; simpl; trivial.
  rewrite IH. f_equal.
  assert (U : isUpper c = false); [|now rewrite U].
  destruct Hc as [E | ->]; [|reflexivity].
  unfold isSlugChar, isLower, isDigit, isCjk in E.
  destruct (isUpper c) eqn:U; trivial. apply between_spec in U.
  apply orb_true_iff in E. destruct E as [E|E].
  - apply orb_true_iff in E.
    destruct E as [E|E]; apply between_spec in E; lia.
  - apply between_spec in E. lia.
Qed.

End SlugFacts.

(** X13: A slug is made of lower-case Basic Latin letters, digits, ideographs
    and hyphens; it has no two hyphens in a row and no hyphen at either
    end. *)
Theorem slugify_safe (toLowerCase : str -> str) (name : str) :
  let s := slugify toLowerCase name in
  Forall (fun c => isSlugChar c = true \/ c = 45%N) s
  /\ (forall l1 l2, s <> l1 ++ 45%N :: 45%N :: l2)
  /\ hd 0%N s <> 45%N
  /\ last s 0%N <> 45%N.
Proof.
  intros s. destruct (SlugFacts.slugify_ok toLowerCase name) as [H L].
  fold s in H, L. repeat split; trivial.
  - now apply (SlugFacts.hyphenOk_chars s true).
  - intros l1 l2 E. rewrite E in H.
    exact (SlugFacts.hyphenOk_no_pair l1 l2 true H).
  - now apply SlugFacts.hyphenOk_head.
Qed.

(** X14: A slug is its own slug, when lower-casing leaves a string of lower-case
    Basic Latin letters, digits, ideographs and single hyphens as it is. *)
Theorem slugify_idempotent (toLowerCase : str -> str) (name : str) :
  (forall s, hyphenOk false s -> toLowerCase s = s) ->
  slugify toLowerCase (slugify toLowerCase name) = slugify toLowerCase name.
Proof.
  intros Hlow. destruct (SlugFacts.slugify_ok toLowerCase name) as [H L].
  set (s := slugify toLowerCase name) in *.
  pose proof (SlugFacts.hyphenOk_weaken true s H) as H0.
  unfold slugify at 1.
  rewrite (SlugFacts.hyphenOk_trim s true H), (Hlow s H0).
  rewrite (SlugFacts.hyphenate_fixed s false H0).
  rewrite (SlugFacts.collapseHyphens_fixed s false H0).
  rewrite (SlugFacts.stripFirst_fixed s H).
  now apply SlugFacts.stripLast_fixed.
Qed.

Lemma slugify_idempotent_witness :
  slugify asciiLower (slugify asciiLower (lit "  My Skill -- v2 (Draft)! "))
  = slugify asciiLower (lit "  My Skill -- v2 (Draft)! ").
Proof.
  apply (slugify_idempotent asciiLower (lit "  My Skill -- v2 (Draft)! ")
           SlugFacts.asciiLower_fixed).
Defined.

(** ** The command line *)

Module CliFacts.
Import StrFacts.

Lemma splitChar_pieces sep s :
  forall cur, Forall (fun c => c <> sep) cur ->
  Forall (Forall (fun c => c <> sep)) (splitCharFrom sep cur s).
Proof.
  induction s as [|c r IH]; intros cur H; simpl.
  - constructor; [|constructor]. now apply Forall_rev.
  - destruct (N.eqb_spec c sep).
    + constructor; [now apply Forall_rev|]. apply IH. constructor.
    + apply IH. now constructor.
Qed.

(** Each cleaned input is a string, not empty, trimmed and without a
    comma. *)
Lemma cleanInputs_clean inputs :
  Forall (fun x => exists s, x = Some s /\ s <> [] /\ trim s = s
                             /\ ~ In 44%N s)
    (cleanInputs inputs).
Proof.
  unfold cleanInputs. apply Forall_map. apply Forall_forall. intros s H.
  apply filter_In in H. destruct H as [H Hne].
  apply in_map_iff in H. destruct H as (p & <- & Hp).
  apply in_flat_map in Hp. destruct Hp as (x & _ & Hp).
  exists (trim p). split; [reflexivity|]. split.
  { intros E. rewrite E in Hne. discriminate. }
  split; [apply trim_idem|].
  pose proof (splitChar_pieces 44%N (stringOf x) [] (Forall_nil _)) as F.
  rewrite Forall_forall in F. specialize (F p Hp).
  assert (T : Forall (fun c => c <> 44%N) (trim p)).
  { unfold trim, trimStart, trimEnd.
    now apply Forall_dropEndWhile, Forall_dropWhile. }
  rewrite Forall_forall in T. intros Hin. exact (T _ Hin eq_refl).
Qed.

Section Loop.
Variable toLowerCase : str -> str.
Variable number : Type.
Variable parseInt10 : option str -> number.

(** The loop ends on a help flag, or by cleaning the inputs. *)
Lemma parseLoop_end n :
  forall argv (a : cliArgs number),
    length argv <= n ->
    cli_help (parseLoop toLowerCase parseInt10 a argv) = true
    \/ exists a', parseLoop toLowerCase parseInt10 a argv = finishArgs a'.
Proof.
  induction n as [|n IH]; intros argv a L.
  - destruct argv; [|simpl in L; lia]. right. exists a. reflexivity.
  - destruct argv as [|key rest]; [right; exists a; reflexivity|].
    simpl in L. cbn [parseLoop].
    destruct (Str.eqb key (lit "--help") || Str.eqb key (lit "-h"));
      [left; reflexivity|].
    assert (K : forall a1,
              cli_help
                (match rest with
                 | [] => finishArgs a1
                 | _ :: rest' => parseLoop toLowerCase parseInt10 a1 rest'
                 end) = true
              \/ exists a',
                   match rest with
                   | [] => finishArgs a1
                   | _ :: rest' => parseLoop toLowerCase parseInt10 a1 rest'
                   end = finishArgs a').
    { intros a1. destruct rest as [|v rest'].
      - right. exists a1. reflexivity.
      - apply IH. simpl in L. lia. }
    repeat match goal with
           | |- context [if ?b then Some _ else _] => destruct b; [apply K|]
           end.
    apply IH. lia.
Qed.

End Loop.

End CliFacts.

(** X15: Unless help was asked for, every input path that [parseArgs] returns is
    a string that is not empty, has no whitespace at either end and holds
    no comma. *)
Theorem parseArgs_inputs (toLowerCase : str -> str) (number : Type)
    (numberOfZ : Z -> number) (parseInt10 : option str -> number)
    (cwd : str) (argv : list str) :
  cli_help (parseArgs toLowerCase numberOfZ parseInt10 cwd argv) = false ->
  Forall (fun x => exists s, x = Some s /\ s <> [] /\ trim s = s
                             /\ ~ In 44%N s)
    (cli_inputs (parseArgs toLowerCase numberOfZ parseInt10 cwd argv)).
Proof.
  unfold parseArgs. intros H.
  match goal with
  | |- context [parseLoop _ _ ?a ?l] =>
      destruct (CliFacts.parseLoop_end toLowerCase number parseInt10
                  (length l) l a (le_n _)) as [E | (a' & E)]
  end.
  - rewrite E in H. discriminate.
  - rewrite E. apply CliFacts.cleanInputs_clean.
Qed.

Lemma parseArgs_inputs_witness :
  Forall (fun x => exists s, x = Some s /\ s <> [] /\ trim s = s
                             /\ ~ In 44%N s)
    (cli_inputs
       (parseArgs asciiLower (fun z => Some z) (fun _ => @None Z) []
          sampleArgv)).
Proof.
  apply (parseArgs_inputs asciiLower (option Z) (fun z => Some z)
           (fun _ => None) [] sampleArgv).
  vm_compute. reflexivity.
Defined.
